(** * MyTube API gateway (HW3/API/api.py)

    A shallow embedding of the FastAPI handlers of [HW3/API/api.py].  Every
    handler is a pure function of its parsed arguments except for two effects:
    [uuid4()] consumes operating-system entropy and [datetime.now()] reads the
    wall clock.  Both are threaded explicitly through a [World]; exceptions
    raised inside a handler body are an [Outcome]. *)

From Stdlib Require Import ZArith NArith List String Ascii Bool Lia.
From Stdlib.Strings Require Import Byte.
From stdpp Require Import base decidable option list strings pretty sorting gmap.
Import ListNotations.

Local Open Scope string_scope.
Local Open Scope list_scope.
Local Open Scope Z_scope.

(** ** Effects: entropy, wall clock, exceptions *)

Module Effects.

(** What a handler can observe of its environment: the values
    [os.urandom(16)] will yield, in call order, and the readings of the wall
    clock, in call order, with the number of each consumed so far. *)
Record World := mkWorld {
  urandom : nat -> N;
  draws : nat;
  wall_clock : nat -> Z;
  reads : nat
}.

Inductive Exception :=
| HTTPException (status_code : Z) (detail : string)
| NameError (name : string)
| ValidationError (model : string) (fields : list string)
| ValueError (max_str_digits : Z).

Inductive Outcome (A : Type) :=
| Return (a : A)
| Raise (e : Exception).
Arguments Return {A} a.
Arguments Raise {A} e.

Definition Handler (A : Type) : Type := World -> Outcome A * World.

Definition ret {A} (a : A) : Handler A := fun w => (Return a, w).

Definition raise {A} (e : Exception) : Handler A := fun w => (Raise e, w).

Definition bind {A B} (c : Handler A) (k : A -> Handler B) : Handler B :=
  fun w =>
    match c w with
    | (Return a, w') => k a w'
    | (Raise e, w') => (Raise e, w')
    end.

(** A validated constructor either yields the object or raises. *)
Definition lift {A} (o : Outcome A) : Handler A := fun w => (o, w).

Definition returns {A} (c : Handler A) (w : World) : Prop :=
  exists a w', c w = (Return a, w').

Definition raises {A} (c : Handler A) (w : World) : Prop :=
  exists e w', c w = (Raise e, w').

End Effects.
Export Effects.

Declare Scope handler_scope.
Delimit Scope handler_scope with handler.
Notation "x <- c ;; k" := (bind c (fun x => k))
  (at level 100, c at next level, right associativity) : handler_scope.
Local Open Scope handler_scope.

(** ** Library values the handlers use *)

Module Py.

(** [uuid.UUID] as its 128-bit integer. *)
Definition UUID := N.

(** [uuid.UUID(bytes=b, version=4)]: sixteen bytes with the RFC 4122 variant
    and the version nibble forced. *)
Definition uuid_v4 (raw : N) : UUID :=
  let i := (raw mod 2 ^ 128)%N in
  let i := N.ldiff i (N.shiftl 0xc000 48) in
  let i := N.lor i (N.shiftl 0x8000 48) in
  let i := N.ldiff i (N.shiftl 0xf000 64) in
  N.lor i (N.shiftl 4 76).

(** [uuid4()]: one draw of entropy. *)
Definition uuid4 : Handler UUID :=
  fun w =>
    (Return (uuid_v4 (urandom w (draws w))),
     mkWorld (urandom w) (S (draws w)) (wall_clock w) (reads w)).

(** [datetime]: microseconds since the epoch. *)
Definition datetime := Z.

(** [datetime.now(tz=ZoneInfo("Europe/Moscow"))]: one reading of the clock. *)
Definition datetime_now : Handler datetime :=
  fun w =>
    (Return (wall_clock w (reads w)),
     mkWorld (urandom w) (draws w) (wall_clock w) (S (reads w))).

(** [range(a, b)] over Python integers. *)
Definition range (a b : Z) : list Z :=
  map (fun k => a + Z.of_nat k) (seq 0 (Z.to_nat (b - a))).

(** [sys.get_int_max_str_digits()]: the interpreter's default limit on the
    number of decimal digits of an integer it converts to a string. *)
Definition int_max_str_digits : Z := 4300.

(** The least integer with more digits than the limit, [10 ^ 4300]. *)
Definition int_str_limit : Z := Eval vm_compute in 10 ^ 4300.

(** The decimal digits of an integer, with a minus sign when negative. *)
Definition decimal (i : Z) : string := pretty i.

(** [str(i)] for an integer, also inside an f-string: [ValueError] when [i]
    has more digits than the limit. *)
Definition str_int (i : Z) : Outcome string :=
  if Z.abs i <? int_str_limit
  then Return (decimal i)
  else Raise (ValueError int_max_str_digits).

Arguments int_str_limit : simpl never.

(** A [str | None] that is truthy: [None] and the empty string are falsy. *)
Definition nonempty (s : option string) : option string :=
  match s with
  | Some s => if String.eqb s "" then None else Some s
  | None => None
  end.

(** [s or d] for [s : str | None] and a string [d]. *)
Definition or_str (s : option string) (d : string) : string :=
  match nonempty s with
  | Some s => s
  | None => d
  end.

(** [x or d] where every value of [x]'s type is truthy ([UUID], enum
    members): only [None] falls through. *)
Definition or_else {A} (x : option A) (d : A) : A :=
  match x with
  | Some a => a
  | None => d
  end.

(** Sequencing a list of effectful computations left to right, as a list
    comprehension does.  Time and memory are not modelled: a comprehension
    over a range of any length is carried out to its end. *)
Fixpoint for_each {A B} (f : A -> Handler B) (l : list A) : Handler (list B) :=
  match l with
  | [] => ret []
  | a :: l' => b <- f a ;; bs <- for_each f l' ;; ret (b :: bs)
  end.

End Py.
Export Py.

(** ** Schemas (the pydantic models of api.py) *)

Module Schemas.

Inductive SortOrder := asc | desc.

Record PageMeta := mkPageMeta {
  pm_page : Z;
  pm_size : Z;
  pm_total : Z
}.

(** Constructing a [PageMeta] validates [page >= 1], [1 <= size <= 200] and
    [total >= 0]; pydantic reports every field that fails. *)
Definition PageMeta_errors (page size total : Z) : list string :=
  (if 1 <=? page then [] else ["page"]) ++
  (if (1 <=? size) && (size <=? 200) then [] else ["size"]) ++
  (if 0 <=? total then [] else ["total"]).

Definition PageMeta_new (page size total : Z) : Outcome PageMeta :=
  match PageMeta_errors page size total with
  | [] => Return (mkPageMeta page size total)
  | fields => Raise (ValidationError "PageMeta" fields)
  end.

Record BaseOK := mkBaseOK {
  ok : bool;
  message : option string
}.

Record TokenPair := mkTokenPair {
  access_token : string;
  tp_refresh_token : string;
  token_type : string;
  expires_in : Z
}.

Record LoginRequest := mkLoginRequest {
  lr_email : string;
  lr_password : string
}.

Record RefreshRequest := mkRefreshRequest {
  refresh_token : string
}.

Inductive UserRole := user | moderator | admin.

Record UserCreate := mkUserCreate {
  uc_email : string;
  uc_password : string;
  uc_display_name : option string
}.

Record UserUpdate := mkUserUpdate {
  uu_display_name : option string;
  uu_bio : option string
}.

Record UserOut := mkUserOut {
  uo_id : UUID;
  uo_email : string;
  uo_display_name : option string;
  uo_bio : option string;
  uo_role : UserRole;
  uo_created_at : datetime
}.

Inductive Visibility := public | unlisted | private.

Record VideoCreate := mkVideoCreate {
  vc_title : string;
  vc_description : option string;
  vc_tags : list string;
  vc_visibility : Visibility
}.

Record VideoOut := mkVideoOut {
  vo_id : UUID;
  vo_owner_id : UUID;
  vo_title : string;
  vo_description : option string;
  vo_tags : list string;
  vo_visibility : Visibility;
  vo_duration_sec : option Z;
  vo_status : string;
  vo_created_at : datetime
}.

Record VideoUpdate := mkVideoUpdate {
  vu_title : option string;
  vu_description : option string;
  vu_tags : option (list string);
  vu_visibility : option Visibility
}.

Record UploadInitResponse := mkUploadInitResponse {
  uir_video_id : UUID
}.

Record ProcessStatus := mkProcessStatus {
  ps_video_id : UUID;
  ps_status : string;
  ps_progress : Z
}.

(** [progress: int = Field(0, ge=0, le=100)]. *)
Definition ProcessStatus_new (video_id : UUID) (status : string) (progress : Z)
  : Outcome ProcessStatus :=
  if (0 <=? progress) && (progress <=? 100)
  then Return (mkProcessStatus video_id status progress)
  else Raise (ValidationError "ProcessStatus" ["progress"]).

Record PublishRequest := mkPublishRequest {
  pr_video_id : UUID;
  make_public : bool
}.

Record PublishResponse := mkPublishResponse {
  pb_video_id : UUID;
  pb_visibility : Visibility;
  published_at : datetime
}.

Record CommentCreate := mkCommentCreate {
  cc_video_id : UUID;
  cc_text : string
}.

Record CommentOut := mkCommentOut {
  co_id : UUID;
  co_video_id : UUID;
  co_author_id : UUID;
  co_text : string;
  co_created_at : datetime
}.

Record LikeRequest := mkLikeRequest {
  lk_video_id : UUID;
  like : bool
}.

Record LikeStatus := mkLikeStatus {
  ls_video_id : UUID;
  likes : Z;
  liked_by_me : bool
}.

Record ViewPing := mkViewPing {
  vp_video_id : UUID;
  position_sec : Z
}.

Record ViewAck := mkViewAck {
  va_video_id : UUID;
  counted : bool;
  view_id : option UUID
}.

Record NotifyRequest := mkNotifyRequest {
  nr_user_id : UUID;
  nr_title : string;
  nr_body : string;
  nr_deep_link : option string
}.

Record NotifyResponse := mkNotifyResponse {
  np_id : UUID;
  np_status : string
}.

Record VideoStats := mkVideoStats {
  vs_video_id : UUID;
  vs_views : Z;
  vs_likes : Z;
  vs_comments : Z;
  watch_time_sec : Z
}.

Record UserStats := mkUserStats {
  us_user_id : UUID;
  us_videos : Z;
  us_views : Z;
  us_likes : Z;
  us_comments : Z
}.

Record SearchResponse := mkSearchResponse {
  meta : PageMeta;
  items : list VideoOut
}.

Record Health := mkHealth {
  h_status : string;
  h_time : datetime
}.

End Schemas.
Export Schemas.

(** ** Dynamic values and name resolution *)

Module Names.

(** The objects that reach a [UUID]-typed field without having been parsed
    by FastAPI: a [UUID], a string, or some other module-level object. *)
Inductive PyObject :=
| PyUUID (u : UUID)
| PyStr (s : string)
| PyOther (name : string).

Definition is_true (o : PyObject) : bool :=
  match o with
  | PyStr s => negb (String.eqb s "")
  | _ => true
  end.

(** [a or b]. *)
Definition py_or (a b : PyObject) : PyObject := if is_true a then a else b.

(** Every name bound at module level of api.py. *)
Definition module_globals : list string :=
  [ "datetime"; "Enum"; "Annotated"; "UUID"; "uuid4"; "ZoneInfo"; "APIRouter";
    "FastAPI"; "File"; "Form"; "Header"; "HTTPException"; "BaseModel"; "Field";
    "HttpUrl"; "constr"; "RedirectResponse"; "app"; "SortOrder"; "PageMeta";
    "BaseOK"; "PresignedPart"; "auth"; "TokenPair"; "LoginRequest";
    "RefreshRequest"; "login"; "refresh"; "logout"; "users"; "UserRole";
    "UserCreate"; "UserUpdate"; "UserOut"; "create_user"; "get_me";
    "update_user"; "videos"; "Visibility"; "VideoCreate"; "VideoOut";
    "VideoUpdate"; "create_video"; "get_video"; "update_video"; "delete_video";
    "search_videos"; "uploads"; "UploadInitRequest"; "UploadInitResponse";
    "init_upload"; "processing"; "ProcessStatus"; "get_processing_status";
    "PublishRequest"; "PublishResponse"; "publish_video"; "social";
    "CommentCreate"; "CommentOut"; "create_comment"; "get_comment";
    "delete_comment"; "LikeRequest"; "LikeStatus"; "set_like"; "ViewPing";
    "ViewAck"; "ping_view"; "notif"; "NotifyRequest"; "NotifyResponse";
    "send_notification"; "stats"; "VideoStats"; "UserStats"; "get_video_stats";
    "get_user_stats"; "search"; "SearchResponse"; "search_videos_global";
    "service"; "Health"; "healthcheck";
    "__name__"; "__doc__"; "__package__"; "__loader__"; "__spec__";
    "__file__"; "__cached__"; "__builtins__" ].

(** The names of the [builtins] module. *)
Definition builtins : list string :=
  [ "abs"; "aiter"; "all"; "anext"; "any"; "ascii"; "bin"; "bool";
    "breakpoint"; "bytearray"; "bytes"; "callable"; "chr"; "classmethod";
    "compile"; "complex"; "copyright"; "credits"; "delattr"; "dict"; "dir";
    "divmod"; "enumerate"; "eval"; "exec"; "exit"; "filter"; "float"; "format";
    "frozenset"; "getattr"; "globals"; "hasattr"; "hash"; "help"; "hex"; "id";
    "input"; "int"; "isinstance"; "issubclass"; "iter"; "len"; "license";
    "list"; "locals"; "map"; "max"; "memoryview"; "min"; "next"; "object";
    "oct"; "open"; "ord"; "pow"; "print"; "property"; "quit"; "range"; "repr";
    "reversed"; "round"; "set"; "setattr"; "slice"; "sorted"; "staticmethod";
    "str"; "sum"; "super"; "tuple"; "type"; "vars"; "zip"; "__import__";
    "__build_class__"; "__debug__"; "None"; "True"; "False"; "Ellipsis";
    "NotImplemented";
    "BaseException"; "BaseExceptionGroup"; "Exception"; "ExceptionGroup";
    "GeneratorExit"; "KeyboardInterrupt"; "SystemExit"; "ArithmeticError";
    "AssertionError"; "AttributeError"; "BlockingIOError"; "BrokenPipeError";
    "BufferError"; "BytesWarning"; "ChildProcessError";
    "ConnectionAbortedError"; "ConnectionError"; "ConnectionRefusedError";
    "ConnectionResetError"; "DeprecationWarning"; "EOFError"; "EncodingWarning";
    "EnvironmentError"; "FileExistsError"; "FileNotFoundError";
    "FloatingPointError"; "FutureWarning"; "IOError"; "ImportError";
    "ImportWarning"; "IndentationError"; "IndexError"; "InterruptedError";
    "IsADirectoryError"; "KeyError"; "LookupError"; "MemoryError";
    "ModuleNotFoundError"; "NameError"; "NotADirectoryError";
    "NotImplementedError"; "OSError"; "OverflowError";
    "PendingDeprecationWarning"; "PermissionError"; "ProcessLookupError";
    "PythonFinalizationError"; "RecursionError"; "ReferenceError";
    "ResourceWarning"; "RuntimeError"; "RuntimeWarning"; "StopAsyncIteration";
    "StopIteration"; "SyntaxError"; "SyntaxWarning"; "SystemError";
    "TabError"; "TimeoutError"; "TypeError"; "UnboundLocalError";
    "UnicodeDecodeError"; "UnicodeEncodeError"; "UnicodeError";
    "UnicodeTranslateError"; "UnicodeWarning"; "UserWarning"; "ValueError";
    "Warning"; "ZeroDivisionError" ].

Definition bound (name : string) (scope : list string) : bool :=
  existsb (String.eqb name) scope.

(** Reading a name inside a function body: the function's own variables,
    then the module's globals, then the builtins, else [NameError]. *)
Definition load_name (locals : list (string * PyObject)) (name : string)
  : Handler PyObject :=
  match List.find (fun binding => String.eqb name (fst binding)) locals with
  | Some binding => ret (snd binding)
  | None =>
      if bound name module_globals || bound name builtins
      then ret (PyOther name)
      else raise (NameError name)
  end.

(** [s.replace(pat, "")]: the occurrences of [pat], left to right. *)
Fixpoint erase_from (pat : string) (skip : nat) (s : string) : string :=
  match s with
  | EmptyString => EmptyString
  | String c s' =>
      match skip with
      | S k => erase_from pat k s'
      | O =>
          if String.prefix pat s && negb (String.eqb pat "")
          then erase_from pat (String.length pat - 1) s'
          else String c (erase_from pat 0 s')
      end
  end.

Definition erase (pat s : string) : string := erase_from pat 0 s.

Definition is_brace (c : ascii) : bool :=
  Ascii.eqb c "{"%char || Ascii.eqb c "}"%char.

Fixpoint lstrip_braces (s : string) : string :=
  match s with
  | String c s' => if is_brace c then lstrip_braces s' else s
  | EmptyString => EmptyString
  end.

Fixpoint rstrip_braces (s : string) : string :=
  match s with
  | String c s' =>
      match rstrip_braces s' with
      | EmptyString => if is_brace c then EmptyString else String c EmptyString
      | rest => String c rest
      end
  | EmptyString => EmptyString
  end.

Definition hex_value (c : ascii) : option N :=
  let n := N_of_ascii c in
  (if (48 <=? n) && (n <=? 57) then Some (n - 48)
   else if (97 <=? n) && (n <=? 102) then Some (n - 87)
   else if (65 <=? n) && (n <=? 70) then Some (n - 55)
   else None)%N.

Fixpoint hex_number (acc : N) (s : string) : option N :=
  match s with
  | EmptyString => Some acc
  | String c s' =>
      match hex_value c with
      | Some d => hex_number (acc * 16 + d)%N s'
      | None => None
      end
  end.

(** [UUID(s)]: the URN prefix, surrounding braces and hyphens are dropped;
    what is left must be thirty-two hexadecimal digits. *)
Definition uuid_of_str (s : string) : option UUID :=
  let h := erase "uuid:" (erase "urn:" s) in
  let h := erase "-" (rstrip_braces (lstrip_braces h)) in
  if Nat.eqb (String.length h) 32 then hex_number 0%N h else None.

(** Validation of a field annotated [UUID]. *)
Definition as_UUID (model field : string) (o : PyObject) : Outcome UUID :=
  match o with
  | PyUUID u => Return u
  | PyStr s =>
      match uuid_of_str s with
      | Some u => Return u
      | None => Raise (ValidationError model [field])
      end
  | PyOther _ => Raise (ValidationError model [field])
  end.

Definition hex_digit (d : N) : ascii :=
  ascii_of_N (if d <? 10 then 48 + d else 87 + d)%N.

(** ['%0<width>x' % x]. *)
Fixpoint hex_fixed (width : nat) (x : N) : string :=
  match width with
  | O => EmptyString
  | S k => hex_fixed k (x / 16)%N +:+ String (hex_digit (x mod 16)%N) EmptyString
  end.

(** [str(u)] for a [UUID]: 8-4-4-4-12 lowercase hexadecimal digits. *)
Definition str_uuid (u : UUID) : string :=
  let h := hex_fixed 32 u in
  substring 0 8 h +:+ "-" +:+ substring 8 4 h +:+ "-" +:+ substring 12 4 h
  +:+ "-" +:+ substring 16 4 h +:+ "-" +:+ substring 20 12 h.

End Names.
Export Names.

(** ** The handlers *)

Module Gateway.

(** *** auth

    api.py binds the name [login] twice; the first function, routed at
    [/auth/login_oauth], is [login_oauth] here. *)

Record RedirectResponse := mkRedirectResponse { url : string }.

Definition login_oauth : Handler RedirectResponse :=
  ret (mkRedirectResponse "https://oauth.com/login").

Definition login (body : LoginRequest) : Handler TokenPair :=
  ret (mkTokenPair "access.demo" "refresh.demo" "Bearer" 3600).

Definition refresh (body : RefreshRequest) : Handler TokenPair :=
  if String.eqb (refresh_token body) ""
  then raise (HTTPException 400 "invalid refresh_token")
  else ret (mkTokenPair "access.refreshed" (refresh_token body) "Bearer" 3500).

Definition logout (authorization : option string) : Handler BaseOK :=
  ret (mkBaseOK true (Some "logged out")).

(** *** users *)

Definition create_user (body : UserCreate) : Handler UserOut :=
  id <- uuid4 ;;
  created_at <- datetime_now ;;
  ret (mkUserOut id (uc_email body) (uc_display_name body) None user created_at).

(** [get_me] has the single parameter [authorization] and assigns no
    variable; it reads the name [user_id]. *)
Definition get_me (authorization : string) : Handler UserOut :=
  id <- load_name [("authorization", PyStr authorization)] "user_id" ;;
  created_at <- datetime_now ;;
  id <- lift (as_UUID "UserOut" "id" id) ;;
  ret (mkUserOut id "demo@example.com" (Some "Demo") None user created_at).

Definition update_user (user_id : UUID) (body : UserUpdate) : Handler UserOut :=
  created_at <- datetime_now ;;
  ret (mkUserOut user_id "demo@example.com"
         (Some (or_str (uu_display_name body) "Demo")) (uu_bio body) user
         created_at).

(** *** videos *)

Definition create_video (body : VideoCreate) (user_id : UUID) : Handler VideoOut :=
  id <- uuid4 ;;
  created_at <- datetime_now ;;
  ret (mkVideoOut id user_id (vc_title body) (vc_description body)
         (vc_tags body) (vc_visibility body) None "uploaded" created_at).

Definition get_video (video_id : UUID) : Handler VideoOut :=
  owner_id <- uuid4 ;;
  created_at <- datetime_now ;;
  ret (mkVideoOut video_id owner_id "Sample Video" None [] public (Some 123)
         "ready" created_at).

Definition update_video (video_id : UUID) (body : VideoUpdate) : Handler VideoOut :=
  owner_id <- uuid4 ;;
  created_at <- datetime_now ;;
  ret (mkVideoOut video_id owner_id (or_str (vu_title body) "Sample Video")
         (vu_description body) (or_else (vu_tags body) [])
         (or_else (vu_visibility body) public) (Some 123) "ready" created_at).

Definition delete_video (video_id : UUID) : Handler BaseOK :=
  ret (mkBaseOK true
         (Some ("video " +:+ str_uuid video_id +:+ " deleted (queued)"))).

Definition search_videos (owner_id : option UUID) (tag : option string)
    (visibility : option Visibility) (sort : SortOrder) (page size : Z)
  : Handler (list VideoOut) :=
  for_each
    (fun i =>
       id <- uuid4 ;;
       owner <- match owner_id with
                | Some o => ret o
                | None => uuid4
                end ;;
       number <- lift (str_int i) ;;
       created_at <- datetime_now ;;
       ret (mkVideoOut id owner ("Video " +:+ number) None []
              (or_else visibility public) None "ready" created_at))
    (range ((page - 1) * size) (page * size)).

(** *** uploads *)

Definition init_upload (filename content_type : string) (file : list byte)
  : Handler UploadInitResponse :=
  video_id <- uuid4 ;;
  ret (mkUploadInitResponse video_id).

(** *** processing *)

Definition get_processing_status (video_id : UUID) : Handler ProcessStatus :=
  lift (ProcessStatus_new video_id "running" 42).

Definition publish_video (body : PublishRequest) : Handler PublishResponse :=
  now <- datetime_now ;;
  ret (mkPublishResponse (pr_video_id body)
         (if make_public body then public else unlisted) now).

(** *** social *)

(** [x_user_id] is [None] when the request carries no [x-user-id] header;
    FastAPI then passes the declared default, the string ["u_123"], as it
    is. *)
Definition create_comment (body : CommentCreate) (x_user_id : option UUID)
  : Handler CommentOut :=
  let x_user_id :=
    match x_user_id with
    | Some u => PyUUID u
    | None => PyStr "u_123"
    end in
  id <- uuid4 ;;
  created_at <- datetime_now ;;
  author_id <- lift (as_UUID "CommentOut" "author_id"
                       (py_or x_user_id (PyStr "u_123"))) ;;
  ret (mkCommentOut id (cc_video_id body) author_id (cc_text body) created_at).

Definition get_comment (comment_id : UUID) : Handler CommentOut :=
  video_id <- uuid4 ;;
  author_id <- uuid4 ;;
  created_at <- datetime_now ;;
  ret (mkCommentOut comment_id video_id author_id "Nice!" created_at).

Definition delete_comment (comment_id : UUID) : Handler BaseOK :=
  ret (mkBaseOK true (Some ("comment " +:+ str_uuid comment_id +:+ " deleted"))).

Definition set_like (body : LikeRequest) (x_user_id : option string)
  : Handler LikeStatus :=
  ret (mkLikeStatus (lk_video_id body) (if like body then 101 else 100)
         (like body)).

Definition ping_view (body : ViewPing) : Handler ViewAck :=
  let counted := position_sec body >? 10 in
  view_id <- (if counted
              then (u <- uuid4 ;; ret (Some u))
              else ret None) ;;
  ret (mkViewAck (vp_video_id body) counted view_id).

(** *** notifications *)

Definition send_notification (body : NotifyRequest) : Handler NotifyResponse :=
  id <- uuid4 ;;
  ret (mkNotifyResponse id "queued").

(** *** stats *)

Definition get_video_stats (video_id : UUID) : Handler VideoStats :=
  ret (mkVideoStats video_id 1234 120 15 98765).

Definition get_user_stats (user_id : UUID) : Handler UserStats :=
  ret (mkUserStats user_id 7 43210 987 321).

(** *** search *)

(** [f"Found {q or tag or i}"]: the index is converted only when [q] and
    [tag] are both falsy. *)
Definition found_title (q tag : option string) (i : Z) : Outcome string :=
  match nonempty q with
  | Some s => Return ("Found " +:+ s)
  | None =>
      match nonempty tag with
      | Some t => Return ("Found " +:+ t)
      | None =>
          match str_int i with
          | Return number => Return ("Found " +:+ number)
          | Raise e => Raise e
          end
      end
  end.

Definition search_videos_global (q tag : option string) (sort : SortOrder)
    (page size : Z) : Handler SearchResponse :=
  items <- for_each
             (fun i =>
                id <- uuid4 ;;
                owner_id <- uuid4 ;;
                title <- lift (found_title q tag i) ;;
                created_at <- datetime_now ;;
                ret (mkVideoOut id owner_id title None []
                       public None "ready" created_at))
             (range ((page - 1) * size) (page * size)) ;;
  meta <- lift (PageMeta_new page size 1000) ;;
  ret (mkSearchResponse meta items).

(** *** service *)

Definition healthcheck : Handler Health :=
  now <- datetime_now ;;
  ret (mkHealth "ok" now).

End Gateway.
Export Gateway.

(** ** Routing: one request, one handler *)

Module Routes.

Inductive Request :=
| POST_auth_login_oauth
| POST_auth_login (body : LoginRequest)
| POST_auth_refresh (body : RefreshRequest)
| POST_auth_logout (authorization : option string)
| POST_users (body : UserCreate)
| GET_users_get_me (authorization : string)
| PATCH_users (user_id : UUID) (body : UserUpdate)
| POST_videos (body : VideoCreate) (user_id : UUID)
| GET_video (video_id : UUID)
| PATCH_video (video_id : UUID) (body : VideoUpdate)
| DELETE_video (video_id : UUID)
| GET_videos (owner_id : option UUID) (tag : option string)
    (visibility : option Visibility) (sort : SortOrder) (page size : Z)
| POST_uploads_upload_video (filename content_type : string) (file : list byte)
| GET_processing_status (video_id : UUID)
| POST_processing_publish (body : PublishRequest)
| POST_social_comments (body : CommentCreate) (x_user_id : option UUID)
| GET_social_comment (comment_id : UUID)
| DELETE_social_comment (comment_id : UUID)
| POST_social_likes (body : LikeRequest) (x_user_id : option string)
| POST_social_views (body : ViewPing)
| POST_notifications (body : NotifyRequest)
| GET_stats_video (video_id : UUID)
| GET_stats_user (user_id : UUID)
| GET_search_videos (q tag : option string) (sort : SortOrder) (page size : Z)
| GET_service_healthcheck.

Inductive Response :=
| Redirect (r : RedirectResponse)
| Tokens (r : TokenPair)
| OK (r : BaseOK)
| User (r : UserOut)
| Video (r : VideoOut)
| Videos (r : list VideoOut)
| UploadInit (r : UploadInitResponse)
| Processing (r : ProcessStatus)
| Published (r : PublishResponse)
| Comment (r : CommentOut)
| Likes (r : LikeStatus)
| View (r : ViewAck)
| Notified (r : NotifyResponse)
| StatsOfVideo (r : VideoStats)
| StatsOfUser (r : UserStats)
| Found (r : SearchResponse)
| Healthy (r : Health).

Definition respond {A} (wrap : A -> Response) (h : Handler A) : Handler Response :=
  a <- h ;; ret (wrap a).

Definition dispatch (r : Request) : Handler Response :=
  match r with
  | POST_auth_login_oauth => respond Redirect login_oauth
  | POST_auth_login body => respond Tokens (login body)
  | POST_auth_refresh body => respond Tokens (refresh body)
  | POST_auth_logout a => respond OK (logout a)
  | POST_users body => respond User (create_user body)
  | GET_users_get_me a => respond User (get_me a)
  | PATCH_users u body => respond User (update_user u body)
  | POST_videos body u => respond Video (create_video body u)
  | GET_video v => respond Video (get_video v)
  | PATCH_video v body => respond Video (update_video v body)
  | DELETE_video v => respond OK (delete_video v)
  | GET_videos o t v s page size => respond Videos (search_videos o t v s page size)
  | POST_uploads_upload_video f c file => respond UploadInit (init_upload f c file)
  | GET_processing_status v => respond Processing (get_processing_status v)
  | POST_processing_publish body => respond Published (publish_video body)
  | POST_social_comments body x => respond Comment (create_comment body x)
  | GET_social_comment c => respond Comment (get_comment c)
  | DELETE_social_comment c => respond OK (delete_comment c)
  | POST_social_likes body x => respond Likes (set_like body x)
  | POST_social_views body => respond View (ping_view body)
  | POST_notifications body => respond Notified (send_notification body)
  | GET_stats_video v => respond StatsOfVideo (get_video_stats v)
  | GET_stats_user u => respond StatsOfUser (get_user_stats u)
  | GET_search_videos q t s page size =>
      respond Found (search_videos_global q t s page size)
  | GET_service_healthcheck => respond Healthy healthcheck
  end.

(** The gateway serving a sequence of requests, one after the other. *)
Fixpoint serve (history : list Request) (w : World)
  : list (Outcome Response) * World :=
  match history with
  | [] => ([], w)
  | r :: rest =>
      let (o, w1) := dispatch r w in
      let (os, w2) := serve rest w1 in
      (o :: os, w2)
  end.

(** The videos a sequence of requests has asked to publish. *)
Definition published (history : list Request) : list UUID :=
  flat_map (fun r => match r with
                     | POST_processing_publish body => [pr_video_id body]
                     | _ => []
                     end) history.

(** The progress values a sequence of answers reports, in order. *)
Definition progress_of (o : Outcome Response) : list Z :=
  match o with
  | Return (Processing st) => [ps_progress st]
  | _ => []
  end.

Definition progress_reported (outs : list (Outcome Response)) : list Z :=
  flat_map progress_of outs.

(** The status polls among a sequence of requests. *)
Definition status_polls (history : list Request) : list UUID :=
  flat_map (fun r => match r with
                     | GET_processing_status v => [v]
                     | _ => []
                     end) history.

End Routes.
Export Routes.

(** * The ingestion pipeline behind the gateway

    api.py implements none of the pipeline the routes [/uploads],
    [/processing] and [/videos] front: no upload session, no status store.
    The two components below are modelled from the specification. *)

(** ** Upload Receiver *)

Module UploadReceiver.

Inductive UploadError :=
| InvalidContentType
| SizeLimitExceeded
| BufferOverflow
| IncompleteUpload
| ChecksumMismatch.

Inductive AppendResult := accepted | duplicate | out_of_order.

(** The bytes at offsets [lo], ..., [hi - 1]. *)
Record ByteRange := mkRange {
  lo : N;
  hi : N
}.

Record Chunk := mkChunk {
  byte_range : ByteRange;
  data : list byte
}.

(** Modelled from the spec: the UploadSession of the data model (identifier,
    target video id, expected total size, received byte ranges, content type,
    expiry timestamp), which api.py does not have; [failure] records that
    the session has failed. *)
Record UploadSession := mkSession {
  session_id : N;
  target_video : UUID;
  expected_size : N;
  received : list Chunk;
  content_type : string;
  expiry : Z;
  failure : option UploadError
}.

Inductive JobType := transcode | thumbnail | metadata.

(** What a successful [complete] leaves behind: the assembled object in
    durable storage, the video in [queued] status and its processing jobs. *)
Record Completed := mkCompleted {
  video : UUID;
  video_status : string;
  stored_object : list byte;
  enqueued : list JobType
}.

Definition length_of (r : ByteRange) : N := (hi r - lo r)%N.

Definition contains (offset : N) (r : ByteRange) : bool :=
  ((lo r <=? offset) && (offset <? hi r))%N.

Definition same_range (a b : ByteRange) : bool :=
  ((lo a =? lo b) && (hi a =? hi b))%N.

Definition already_received (r : ByteRange) (s : UploadSession) : bool :=
  existsb (fun c => same_range r (byte_range c)) (received s).

(** The end of the contiguous prefix of the object received so far. *)
Fixpoint frontier_from (fuel : nat) (pos : N) (chunks : list Chunk) : N :=
  match fuel with
  | O => pos
  | S fuel' =>
      match List.find (fun c => (lo (byte_range c) =? pos)%N
                           && (pos <? hi (byte_range c))%N) chunks with
      | Some c => frontier_from fuel' (hi (byte_range c)) chunks
      | None => pos
      end
  end.

Definition frontier (s : UploadSession) : N :=
  frontier_from (length (received s)) 0%N (received s).

(** The bytes held out of order: those of the chunks that reach beyond
    the contiguous prefix. *)
Definition buffered (s : UploadSession) : N :=
  fold_right N.add 0%N
    (map (fun c => length_of (byte_range c))
       (List.filter (fun c => (frontier s <? hi (byte_range c))%N)
          (received s))).

Definition store (r : ByteRange) (d : list byte) (s : UploadSession)
  : UploadSession :=
  mkSession (session_id s) (target_video s) (expected_size s)
    (received s ++ [mkChunk r d]) (content_type s) (expiry s) (failure s).

Definition fail (e : UploadError) (s : UploadSession) : UploadSession :=
  mkSession (session_id s) (target_video s) (expected_size s)
    (received s) (content_type s) (expiry s) (Some e).

(** The nonempty chunks in offset order. *)
Definition by_offset (a b : Chunk) : Prop :=
  (lo (byte_range a) <= lo (byte_range b))%N.

#[global] Instance by_offset_dec : RelDecision by_offset :=
  fun a b => decide (lo (byte_range a) <= lo (byte_range b))%N.

Definition in_order (chunks : list Chunk) : list Chunk :=
  merge_sort by_offset
    (List.filter (fun c => (lo (byte_range c) <? hi (byte_range c))%N) chunks).

(** Each chunk starts where the previous one ended, from [pos] to [size]. *)
Fixpoint contiguous (pos : N) (chunks : list Chunk) (size : N) : bool :=
  match chunks with
  | [] => (pos =? size)%N
  | c :: rest =>
      (lo (byte_range c) =? pos)%N && contiguous (hi (byte_range c)) rest size
  end.

Definition assemble (s : UploadSession) : list byte :=
  concat (map data (in_order (received s))).

(** Declaratively: how many received ranges hold the byte at [offset]. *)
Definition coverage (offset : N) (ranges : list ByteRange) : nat :=
  length (List.filter (contains offset) ranges).

(** The ranges cover [0, size) exactly: every byte below [size] lies in
    one range and one only (no gap, no overlap), and no byte at or beyond
    [size] lies in any. *)
Definition exact_cover (ranges : list ByteRange) (size : N) : Prop :=
  forall offset : N,
    coverage offset ranges = if (offset <? size)%N then 1%nat else 0%nat.

Section Configured.

(** Configuration the spec leaves open: the out-of-order buffer bound and
    the content checksum. *)
Variable buffer_bound : N.
Variable checksum : list byte -> N.

(** Modelled from the spec: [appendChunk(session_id, byte_range, data) ->
    accepted|duplicate|out_of_order] of the Upload Receiver, absent from
    api.py.  A duplicate range is discarded; an out-of-order range is
    buffered up to the bound, beyond which the session fails with
    [BufferOverflow]. *)
Definition appendChunk (s : UploadSession) (r : ByteRange) (d : list byte)
  : UploadSession * (AppendResult + UploadError) :=
  match failure s with
  | Some e => (s, inr e)
  | None =>
      if already_received r s then (s, inl duplicate)
      else if (lo r =? frontier s)%N then (store r d s, inl accepted)
      else if (buffered s + length_of r <=? buffer_bound)%N
           then (store r d s, inl out_of_order)
           else (fail BufferOverflow s, inr BufferOverflow)
  end.

(** A sequence of chunk deliveries. *)
Definition deliver (chunks : list Chunk) (s : UploadSession) : UploadSession :=
  fold_left (fun s c => fst (appendChunk s (byte_range c) (data c))) chunks s.

Definition checksum_ok (s : UploadSession) (supplied : option N) : bool :=
  match supplied with
  | Some c => (checksum (assemble s) =? c)%N
  | None => true
  end.

(** Modelled from the spec: [complete(session_id) -> Video] of the Upload
    Receiver, absent from api.py.  It fails with [IncompleteUpload] if the
    received bytes do not cover the declared size exactly, and with
    [ChecksumMismatch] if a supplied checksum does not match; on success
    the assembled object is stored, the video is [queued] and its jobs are
    enqueued. *)
Definition complete (s : UploadSession) (supplied : option N)
  : Completed + UploadError :=
  match failure s with
  | Some e => inr e
  | None =>
      if contiguous 0%N (in_order (received s)) (expected_size s)
      then if checksum_ok s supplied
           then inl (mkCompleted (target_video s) "queued" (assemble s)
                       [transcode; thumbnail; metadata])
           else inr ChecksumMismatch
      else inr IncompleteUpload
  end.

End Configured.

(** A range has been delivered to a session when the session holds it or
    has failed. *)
Definition settled (r : ByteRange) (s : UploadSession) : Prop :=
  already_received r s = true \/ failure s <> None.

(** The half-open interval test [from <= offset < to]. *)
Definition within (from to offset : N) : bool :=
  ((from <=? offset) && (offset <? to))%N.

(** [cs'] is [cs] with re-deliveries added: each added chunk carries a byte
    range that an earlier delivery of the sequence already carried. *)
Inductive redelivered : list ByteRange -> list Chunk -> list Chunk -> Prop :=
| redelivered_nil seen :
    redelivered seen [] []
| redelivered_next seen c cs cs' :
    redelivered (byte_range c :: seen) cs cs' ->
    redelivered seen (c :: cs) (c :: cs')
| redelivered_again seen r d cs cs' :
    In r seen ->
    redelivered seen cs cs' ->
    redelivered seen cs (mkChunk r d :: cs').

End UploadReceiver.

(** ** Status Store *)

Module StatusStore.

Inductive Status := uploaded | queued | processing | ready | failed.

#[global] Instance Status_eq_dec : EqDecision Status.
Proof. solve_decision. Defined.

(** The legal state graph, [uploaded -> queued -> processing -> {ready, failed}],
    as a relation. *)
Inductive legal : Status -> Status -> Prop :=
| legal_enqueue : legal uploaded queued
| legal_start : legal queued processing
| legal_succeed : legal processing ready
| legal_give_up : legal processing failed.

(** The transition table validated on every write. *)
Definition transition_table : list (Status * Status) :=
  [ (uploaded, queued); (queued, processing);
    (processing, ready); (processing, failed) ].

Definition in_table (from to : Status) : bool :=
  existsb (fun edge => bool_decide (edge = (from, to))) transition_table.

(** Modelled from the spec: the StatusRecord of the data model (video id,
    status, progress percentage 0-100, optional error detail).  api.py has
    only the response schema [ProcessStatus]. *)
Record StatusRecord := mkStatusRecord {
  video_id : UUID;
  status : Status;
  progress : N;
  error_detail : option string
}.

(** A change to one record: any of a new status, a progress report and an
    error detail, and whether a new processing attempt starts with it. *)
Record Delta := mkDelta {
  to_status : option Status;
  to_progress : option N;
  new_attempt : bool;
  to_error : option string
}.

Inductive StoreError := InvalidTransition.

Definition status_allowed (r : StatusRecord) (d : Delta) : bool :=
  match to_status d with
  | Some s => in_table (status r) s
  | None => true
  end.

(** Progress stays within 0-100 and, within an attempt, never regresses. *)
Definition progress_allowed (r : StatusRecord) (d : Delta) : bool :=
  match to_progress d with
  | Some p => ((p <=? 100) && (new_attempt d || (progress r <=? p)))%N
  | None => true
  end.

Definition apply (r : StatusRecord) (d : Delta) : StatusRecord :=
  mkStatusRecord (video_id r)
    (default (status r) (to_status d))
    (default (if new_attempt d then 0%N else progress r) (to_progress d))
    (match to_error d with
     | Some e => Some e
     | None => error_detail r
     end).

Definition get (store : gmap UUID StatusRecord) (id : UUID)
  : option StatusRecord :=
  store !! id.

(** Modelled from the spec: [update(video_id, delta)] of the Status Store,
    absent from api.py.  The delta is applied as a whole or not at all: a
    write that leaves the legal state graph, regresses progress within an
    attempt or names a video the store does not hold fails with
    [InvalidTransition] and the store is returned as it was. *)
Definition update (store : gmap UUID StatusRecord) (id : UUID) (d : Delta)
  : gmap UUID StatusRecord * (unit + StoreError) :=
  match store !! id with
  | Some r =>
      if status_allowed r d && progress_allowed r d
      then (<[id := apply r d]> store, inl tt)
      else (store, inr InvalidTransition)
  | None => (store, inr InvalidTransition)
  end.

(** A sequence of writes, each to the video it names; a rejected write
    leaves the store as it was. *)
Definition run (writes : list (UUID * Delta)) (store : gmap UUID StatusRecord)
  : gmap UUID StatusRecord :=
  fold_left (fun st write => fst (update st (fst write) (snd write)))
    writes store.

(** The writes of a sequence that start a new processing attempt of a
    video. *)
Definition attempts_started (id : UUID) (writes : list (UUID * Delta))
  : list Delta :=
  List.filter (fun d => new_attempt d)
    (map snd (List.filter (fun write => (fst write =? id)%N) writes)).

End StatusStore.

(** ** The upload scenario of the specification

    A file of three chunks of 1000, 1000 and 500 bytes, delivered out of
    order: the second chunk, the first, the third. *)

Module Scenario.
Import UploadReceiver.

Definition chunk_of (from to : N) (fill : byte) : Chunk :=
  mkChunk (mkRange from to) (repeat fill (N.to_nat (to - from))).

Definition first_chunk : Chunk := chunk_of 0 1000 x01.
Definition second_chunk : Chunk := chunk_of 1000 2000 x02.
Definition third_chunk : Chunk := chunk_of 2000 2500 x03.

Definition new_session : UploadSession :=
  mkSession 1%N 1%N 2500%N [] "video/mp4" 0 None.

(** The illustrative buffer bound of the specification, 64 MB. *)
Definition default_buffer_bound : N := (64 * 1024 * 1024)%N.

(** A checksum to run the model with: the sum of the bytes modulo 2^32. *)
Definition byte_sum (bs : list byte) : N :=
  fold_right (fun b acc => ((Byte.to_N b + acc) mod 2 ^ 32)%N) 0%N bs.

Definition out_of_order_delivery : list Chunk :=
  [second_chunk; first_chunk; third_chunk].

(** The same delivery with the second and first chunks re-sent. *)
Definition delivery_with_resends : list Chunk :=
  [second_chunk; first_chunk; second_chunk; third_chunk; first_chunk].

Definition uploaded_session : UploadSession :=
  deliver default_buffer_bound out_of_order_delivery new_session.

End Scenario.

(** * Properties *)

Module Properties.

(** A world to evaluate the handlers in: the entropy source yields 0, 1, 2,
    ... and the clock advances by one microsecond per reading. *)
Definition sample_world : World :=
  mkWorld (fun n => N.of_nat n) 0 (fun n => 1700000000000000 + Z.of_nat n) 0.

(** The world after [d] more draws of entropy and [r] more clock readings. *)
Definition later (d r : nat) (w : World) : World :=
  mkWorld (urandom w) (draws w + d) (wall_clock w) (reads w + r).

(** Publishing a video that is not [ready] fails. *)
Definition publish_requires_ready : Prop :=
  forall (v : VideoOut) (public_wanted : bool) (w : World),
    vo_status v <> "ready" ->
    raises (publish_video (mkPublishRequest (vo_id v) public_wanted)) w.

(** Whatever requests the gateway has served, a search only returns videos
    that one of them published. *)
Definition only_published_discoverable : Prop :=
  forall history w outs w1 q tag sort page size resp w2,
    serve history w = (outs, w1) ->
    search_videos_global q tag sort page size w1 = (Return resp, w2) ->
    forall v, In v (items resp) -> In (vo_id v) (published history).

(** The title of the video a search fabricates for index [i], when the
    index can be printed. *)
Definition found_text (q tag : option string) (i : Z) : string :=
  "Found " +:+
  match nonempty q with
  | Some s => s
  | None => or_str tag (decimal i)
  end.

(** The [k]-th video a search fabricates from world [w] when the page
    starts at index [start]. *)
Definition found_video (q tag : option string) (start : Z) (w : World)
    (k : nat) : VideoOut :=
  mkVideoOut (uuid_v4 (urandom w (draws w + 2 * k)))
    (uuid_v4 (urandom w (draws w + 2 * k + 1)))
    (found_text q tag (start + Z.of_nat k)) None [] public None "ready"
    (wall_clock w (reads w + k)).

(** The requests whose handler fails by its own check. *)
Definition is_refresh_of_empty_token (r : Request) : Prop :=
  exists body, r = POST_auth_refresh body /\ refresh_token body = "".

End Properties.
Export Properties.

(** ** What the listing handlers answer *)

Module Listing.

(** The number of ids [search_videos] draws for one video: the owner's too
    unless the request names one. *)
Definition draws_per_video (owner_id : option UUID) : nat :=
  match owner_id with
  | Some _ => 1
  | None => 2
  end.

(** The [k]-th video [search_videos] lists from world [w] when the page
    starts at index [start]. *)
Definition listed_video (owner_id : option UUID)
    (visibility : option Visibility) (start : Z) (w : World) (k : nat)
  : VideoOut :=
  mkVideoOut
    (uuid_v4 (urandom w (draws w + draws_per_video owner_id * k)))
    (match owner_id with
     | Some o => o
     | None => uuid_v4 (urandom w (draws w + 2 * k + 1))
     end)
    ("Video " +:+ decimal (start + Z.of_nat k)) None []
    (or_else visibility public) None "ready"
    (wall_clock w (reads w + k)).

(** The fields [PageMeta] rejects for a page number and a page size. *)
Definition rejected_fields (page size : Z) : list string :=
  (if page <? 1 then ["page"] else [])
  ++ (if (size <? 1) || (200 <? size) then ["size"] else []).

(** Every index of the page [range((page - 1) * size, page * size)] has at
    most [int_max_str_digits] digits, so that it can be printed. *)
Definition page_prints (page size : Z) : Prop :=
  size <= 0
  \/ (- int_str_limit < (page - 1) * size /\ page * size <= int_str_limit).

(** The titles of the videos a handler answered with. *)
Definition titles (videos : list VideoOut) : list string :=
  map vo_title videos.

End Listing.
Export Listing.

(** * Proofs: the gateway *)

(** Equal up to arithmetic on indices. *)
Ltac same_up_to_arithmetic :=
  first [ reflexivity | lia | f_equal; same_up_to_arithmetic ].

Section HandlerLaws.

Context {A B : Type}.

Lemma bind_returns (c : Handler A) (k : A -> Handler B) w a w' :
  c w = (Return a, w') -> bind c k w = k a w'.
Proof. intros H. unfold bind. now rewrite H. Qed.

Lemma bind_raises (c : Handler A) (k : A -> Handler B) w e w' :
  c w = (Raise e, w') -> bind c k w = (Raise e, w').
Proof. intros H. unfold bind. now rewrite H. Qed.

Lemma returns_bind (c : Handler A) (k : A -> Handler B) w :
  returns c w -> (forall a w', returns (k a) w') -> returns (bind c k) w.
Proof.
  intros (a & w' & Hc) Hk. unfold returns.
  rewrite (bind_returns _ _ _ _ _ Hc). apply Hk.
Qed.

Lemma returns_or_raises (c : Handler A) w : returns c w \/ raises c w.
Proof.
  unfold returns, raises. destruct (c w) as [[a | e] w'] eqn:E; eauto.
Qed.

Lemma returns_not_raises (c : Handler A) w : returns c w -> ~ raises c w.
Proof. intros (a & w1 & H1) (e & w2 & H2). congruence. Qed.

End HandlerLaws.

Lemma for_each_returns {A B} (f : A -> Handler B) :
  (forall a w, returns (f a) w) -> forall l w, returns (for_each f l) w.
Proof.
  intros Hf l. induction l as [| a l IH]; intros w; simpl.
  - now exists [], w.
  - apply returns_bind; [apply Hf |]. intros b w1.
    apply returns_bind; [apply IH |]. intros bs w2. now exists (b :: bs), w2.
Qed.

Lemma respond_returns {A} (wrap : A -> Response) (h : Handler A) w :
  returns (respond wrap h) w <-> returns h w.
Proof.
  unfold respond, returns, bind. destruct (h w) as [[a | e] w'] eqn:E; simpl.
  - split; intros _; [exists a, w' | exists (wrap a), w']; reflexivity.
  - split; intros (x & w1 & H); discriminate.
Qed.

Lemma respond_raises {A} (wrap : A -> Response) (h : Handler A) w e w' :
  respond wrap h w = (Raise e, w') <-> h w = (Raise e, w').
Proof.
  unfold respond, bind, ret. destruct (h w) as [[a | e1] w1]; simpl.
  - split; intros H; discriminate.
  - split; intros H; injection H as -> ->; reflexivity.
Qed.

Lemma user_id_is_unbound :
  bound "user_id" module_globals || bound "user_id" builtins = false.
Proof. vm_compute. reflexivity. Qed.

Lemma get_me_raises authorization w :
  get_me authorization w = (Raise (NameError "user_id"), w).
Proof.
  unfold get_me, bind, load_name. simpl List.find.
  rewrite user_id_is_unbound. reflexivity.
Qed.

Lemma refresh_raises_iff body w :
  raises (refresh body) w <-> refresh_token body = "".
Proof.
  unfold raises, refresh. destruct (String.eqb_spec (refresh_token body) "") as [E | E].
  - split; [easy |]. intros _. eexists _, _. reflexivity.
  - split; [| easy]. intros (e & w' & H). discriminate.
Qed.

Lemma refresh_rejects_empty body w :
  refresh_token body = "" ->
  refresh body w = (Raise (HTTPException 400 "invalid refresh_token"), w).
Proof. intros E. unfold refresh. now rewrite E. Qed.

(** The only upload the gateway has takes the whole file in one request
    and always answers with a fresh id. *)
Lemma init_upload_returns filename content_type file w :
  init_upload filename content_type file w
  = (Return (mkUploadInitResponse (uuid_v4 (urandom w (draws w)))), later 1 0 w).
Proof.
  unfold init_upload, bind, uuid4, ret, later. simpl. same_up_to_arithmetic.
Qed.

Lemma publish_video_returns body w :
  publish_video body w =
    (Return (mkPublishResponse (pr_video_id body)
               (if make_public body then public else unlisted)
               (wall_clock w (reads w))),
     later 0 1 w).
Proof.
  unfold publish_video, bind, datetime_now, ret, later. simpl.
  now rewrite Nat.add_0_r, Nat.add_1_r.
Qed.

Lemma found_video_first q tag start w :
  found_video q tag start w 0
  = mkVideoOut (uuid_v4 (urandom w (draws w)))
      (uuid_v4 (urandom w (S (draws w)))) (found_text q tag (start + Z.of_nat 0))
      None [] public None "ready" (wall_clock w (reads w)).
Proof. unfold found_video. same_up_to_arithmetic. Qed.

Lemma found_video_next q tag start w k :
  found_video q tag start w (S k)
  = found_video q tag (start + 1)
      (mkWorld (urandom w) (S (S (draws w))) (wall_clock w) (S (reads w))) k.
Proof. unfold found_video. simpl. same_up_to_arithmetic. Qed.

Lemma str_int_prints i :
  Z.abs i < int_str_limit -> str_int i = Return (decimal i).
Proof.
  intros H. unfold str_int.
  now destruct (Z.ltb_spec (Z.abs i) int_str_limit); [| lia].
Qed.

Lemma str_int_too_long i :
  int_str_limit <= Z.abs i -> str_int i = Raise (ValueError int_max_str_digits).
Proof.
  intros H. unfold str_int.
  now destruct (Z.ltb_spec (Z.abs i) int_str_limit); [lia |].
Qed.

Lemma found_title_prints q tag i :
  Z.abs i < int_str_limit -> found_title q tag i = Return (found_text q tag i).
Proof.
  intros H. unfold found_title, found_text, or_str.
  destruct (nonempty q); [reflexivity |].
  destruct (nonempty tag); [reflexivity |]. now rewrite str_int_prints.
Qed.

Lemma found_title_named q tag i :
  nonempty q <> None \/ nonempty tag <> None ->
  found_title q tag i = Return (found_text q tag i).
Proof.
  unfold found_title, found_text, or_str.
  destruct (nonempty q); [reflexivity |].
  destruct (nonempty tag); [reflexivity |]. intros [H | H]; contradiction.
Qed.

Lemma found_title_too_long q tag i :
  nonempty q = None -> nonempty tag = None -> int_str_limit <= Z.abs i ->
  found_title q tag i = Raise (ValueError int_max_str_digits).
Proof.
  intros Hq Ht H. unfold found_title. now rewrite Hq, Ht, str_int_too_long.
Qed.

Lemma found_item q tag i w :
  found_title q tag i = Return (found_text q tag i) ->
  (id <- uuid4 ;;
   owner_id <- uuid4 ;;
   title <- lift (found_title q tag i) ;;
   created_at <- datetime_now ;;
   ret (mkVideoOut id owner_id title None [] public None "ready" created_at)) w
  = (Return (mkVideoOut (uuid_v4 (urandom w (draws w)))
               (uuid_v4 (urandom w (S (draws w)))) (found_text q tag i)
               None [] public None "ready" (wall_clock w (reads w))),
     mkWorld (urandom w) (S (S (draws w))) (wall_clock w) (S (reads w))).
Proof.
  intros H. unfold bind, uuid4, datetime_now, lift, ret. simpl.
  now rewrite H.
Qed.

Lemma found_items q tag n : forall start w,
  (forall k, (k < n)%nat ->
     found_title q tag (start + Z.of_nat k)
     = Return (found_text q tag (start + Z.of_nat k))) ->
  for_each
    (fun i =>
       id <- uuid4 ;;
       owner_id <- uuid4 ;;
       title <- lift (found_title q tag i) ;;
       created_at <- datetime_now ;;
       ret (mkVideoOut id owner_id title None [] public None "ready"
              created_at))
    (map (fun k => start + Z.of_nat k) (seq 0 n)) w
  = (Return (map (found_video q tag start w) (seq 0 n)), later (2 * n) n w).
Proof.
  induction n as [| n IH]; intros start w H.
  - simpl. unfold ret, later. destruct w as [u d c r]. simpl.
    now rewrite !Nat.add_0_r.
  - rewrite <- cons_seq, <- seq_shift, !map_cons, !map_map.
    rewrite (map_ext (fun k => start + Z.of_nat (S k))
               (fun k => (start + 1) + Z.of_nat k)) by (intros; lia).
    cbn [for_each]. unfold bind at 1.
    rewrite found_item by (apply H; lia).
    unfold bind at 1. rewrite IH.
    + unfold ret. rewrite found_video_first.
      rewrite (map_ext _ _ (found_video_next q tag start w)).
      unfold later. simpl. same_up_to_arithmetic.
    + intros k Hk.
      replace (start + 1 + Z.of_nat k) with (start + Z.of_nat (S k)) by lia.
      apply H. lia.
Qed.

Lemma page_indices page size k :
  (k < Z.to_nat size)%nat ->
  (page - 1) * size <= (page - 1) * size + Z.of_nat k < page * size.
Proof. intros H. lia. Qed.

Lemma page_prints_index page size i :
  page_prints page size -> (page - 1) * size <= i < page * size ->
  Z.abs i < int_str_limit.
Proof. unfold page_prints. intros [H | H] Hi; lia. Qed.

(** Every title of a page can be built when the search names a query or a
    tag, or else when the indices of the page have at most 4300 digits. *)
Lemma found_titles_print_on q tag page size :
  nonempty q <> None \/ nonempty tag <> None \/ page_prints page size ->
  forall i, (page - 1) * size <= i < page * size ->
    found_title q tag i = Return (found_text q tag i).
Proof.
  intros [H | [H | H]] i Hi.
  - apply found_title_named. now left.
  - apply found_title_named. now right.
  - apply found_title_prints. now apply (page_prints_index page size).
Qed.

Lemma found_titles_print q tag page size :
  1 <= page -> 1 <= size ->
  nonempty q <> None \/ nonempty tag <> None \/ page * size <= int_str_limit ->
  forall i, (page - 1) * size <= i < page * size ->
    found_title q tag i = Return (found_text q tag i).
Proof.
  intros Hp Hs [H | [H | H]] i Hi.
  - apply found_title_named. now left.
  - apply found_title_named. now right.
  - apply found_title_prints. assert (0 <= (page - 1) * size) by nia. lia.
Qed.

(** What [search_videos_global] does once every title of the page can be
    built: the page is fabricated, then the paging validated. *)
Lemma search_videos_global_outcome q tag sort page size w :
  (forall i, (page - 1) * size <= i < page * size ->
     found_title q tag i = Return (found_text q tag i)) ->
  search_videos_global q tag sort page size w
  = (match PageMeta_new page size 1000 with
     | Return m =>
         Return (mkSearchResponse m
                   (map (found_video q tag ((page - 1) * size) w)
                      (seq 0 (Z.to_nat size))))
     | Raise e => Raise e
     end,
     later (2 * Z.to_nat size) (Z.to_nat size) w).
Proof.
  intros H. unfold search_videos_global, range.
  replace (page * size - (page - 1) * size) with size by lia.
  unfold bind at 1. rewrite found_items.
  - unfold bind, lift, ret. now destruct (PageMeta_new page size 1000).
  - intros k Hk. apply H. now apply page_indices.
Qed.

Lemma PageMeta_new_valid page size :
  1 <= page -> 1 <= size <= 200 ->
  PageMeta_new page size 1000 = Return (mkPageMeta page size 1000).
Proof.
  intros Hp Hs. unfold PageMeta_new, PageMeta_errors.
  destruct (Z.leb_spec 1 page); [| lia].
  destruct (Z.leb_spec 1 size); [| lia].
  destruct (Z.leb_spec size 200); [| lia].
  reflexivity.
Qed.

Lemma search_videos_global_valid q tag sort page size w :
  1 <= page -> 1 <= size <= 200 ->
  (forall i, (page - 1) * size <= i < page * size ->
     found_title q tag i = Return (found_text q tag i)) ->
  search_videos_global q tag sort page size w
  = (Return (mkSearchResponse (mkPageMeta page size 1000)
               (map (found_video q tag ((page - 1) * size) w)
                  (seq 0 (Z.to_nat size)))),
     later (2 * Z.to_nat size) (Z.to_nat size) w).
Proof.
  intros Hp Hs H. rewrite search_videos_global_outcome by exact H.
  now rewrite PageMeta_new_valid.
Qed.

Lemma dispatch_progress (r : Request) (w : World) :
  progress_of (fst (dispatch r w))
  = match r with
    | GET_processing_status _ => [42]
    | _ => []
    end.
Proof.
  destruct r; try reflexivity; unfold dispatch, respond, bind;
    match goal with
    | |- context [match ?h w with _ => _ end] =>
        destruct (h w) as [[a | e] w']; reflexivity
    end.
Qed.

Lemma serve_cons r history w :
  fst (serve (r :: history) w)
  = fst (dispatch r w) :: fst (serve history (snd (dispatch r w))).
Proof.
  simpl. destruct (dispatch r w) as [o w1]. simpl.
  now destruct (serve history w1).
Qed.

Lemma progress_reported_is_42 history : forall w,
  progress_reported (fst (serve history w))
  = repeat 42 (length (status_polls history)).
Proof.
  induction history as [| r history IH]; intros w; [reflexivity |].
  rewrite serve_cons. unfold progress_reported in *. simpl flat_map.
  rewrite IH, dispatch_progress. unfold status_polls. simpl flat_map.
  rewrite length_app, repeat_app. now destruct r.
Qed.

Lemma repeat_sorted (p : Z) (n : nat) : StronglySorted Z.le (repeat p n).
Proof.
  induction n as [| n IH]; simpl; constructor; [exact IH |].
  clear. induction n; simpl; constructor; [lia | assumption].
Qed.

(** ** Publishing *)

(** C1 (counterexample).  The video [create_video] returns has status
    ["uploaded"], not ["ready"], and [publish_video] publishes it all the
    same; a second call with the same request succeeds too and stamps the
    next clock reading as [published_at]. *)
Lemma publish_video_accepts_unready_video :
  exists v w1 r1 w2 r2 w3,
    create_video (mkVideoCreate "clip" None [] private) 7%N sample_world
      = (Return v, w1)
    /\ vo_status v = "uploaded"
    /\ publish_video (mkPublishRequest (vo_id v) true) w1 = (Return r1, w2)
    /\ pb_visibility r1 = public
    /\ publish_video (mkPublishRequest (vo_id v) true) w2 = (Return r2, w3)
    /\ pb_visibility r2 = public
    /\ published_at r2 = published_at r1 + 1
    /\ ~ publish_requires_ready.
Proof.
  do 6 eexists.
  split; [reflexivity |]. split; [reflexivity |].
  split; [reflexivity |]. split; [reflexivity |].
  split; [reflexivity |]. split; [reflexivity |].
  split; [reflexivity |].
  intros H.
  destruct (H (mkVideoOut 0%N 0%N "" None [] private None "uploaded" 0) true
              sample_world) as (e & w & He); [discriminate |].
  rewrite publish_video_returns in He. discriminate.
Qed.

(** C1 (amended).  [publish_video] never fails, whatever the status of the
    video: for every video record and either choice of [make_public], the
    call returns the video's id, visibility [public] when [make_public] and
    [unlisted] otherwise, and the current clock reading as [published_at];
    a second call with the same request returns the same id and visibility
    and the next clock reading. *)
Theorem publish_video_never_fails
    (v : VideoOut) (public_wanted : bool) (w : World) :
  let body := mkPublishRequest (vo_id v) public_wanted in
  publish_video body w
    = (Return (mkPublishResponse (vo_id v)
                 (if public_wanted then public else unlisted)
                 (wall_clock w (reads w))),
       later 0 1 w)
  /\ publish_video body (later 0 1 w)
    = (Return (mkPublishResponse (vo_id v)
                 (if public_wanted then public else unlisted)
                 (wall_clock w (reads w + 1))),
       later 0 2 w)
  /\ ~ raises (publish_video body) w.
Proof.
  cbv zeta. split; [apply publish_video_returns |]. split.
  - rewrite publish_video_returns. unfold later. simpl.
    same_up_to_arithmetic.
  - apply returns_not_raises. eexists _, _. apply publish_video_returns.
Qed.

(** ** Processing status *)

(** C10.  For every [video_id], [get_processing_status] returns the record
    with that [video_id], status ["running"] and progress 42, and leaves the
    world as it was; the same holds for the id of any video record whatever
    its status, and the status reported is none of ["queued"], ["ready"],
    ["failed"]. *)
Theorem get_processing_status_is_constant (video_id : UUID) (w : World) :
  get_processing_status video_id w
    = (Return (mkProcessStatus video_id "running" 42), w)
  /\ (forall v : VideoOut,
        get_processing_status (vo_id v) w
          = (Return (mkProcessStatus (vo_id v) "running" 42), w))
  /\ ps_status (mkProcessStatus video_id "running" 42) <> "queued"
  /\ ps_status (mkProcessStatus video_id "running" 42) <> "ready"
  /\ ps_status (mkProcessStatus video_id "running" 42) <> "failed".
Proof. repeat split; try reflexivity; discriminate. Qed.

(** What polling clients see of the gateway: whatever sequence of requests
    it serves, every status poll is answered, every answer reports
    progress 42, and so the reported values are sorted. *)
Lemma reported_progress_never_decreases (history : list Request) (w : World) :
  let reports := progress_reported (fst (serve history w)) in
  StronglySorted Z.le reports
  /\ length reports = length (status_polls history)
  /\ Forall (fun p => p = 42 /\ p <> 0) reports.
Proof.
  cbv zeta. rewrite progress_reported_is_42.
  split; [apply repeat_sorted |]. split; [apply repeat_length |].
  apply List.Forall_forall. intros p Hp. apply repeat_spec in Hp. subst.
  split; [reflexivity | discriminate].
Qed.

(** ** Views *)

(** C9.  For every [ViewPing], [ping_view] answers with [counted] true
    exactly when [position_sec] is strictly greater than 10 (at 10 it is
    false), and with a [view_id] exactly when [counted] is true. *)
Theorem ping_view_counts_after_ten_seconds (body : ViewPing) (w : World) :
  exists ack w',
    ping_view body w = (Return ack, w')
    /\ va_video_id ack = vp_video_id body
    /\ (counted ack = true <-> position_sec body > 10)
    /\ (position_sec body = 10 -> counted ack = false)
    /\ (is_Some (view_id ack) <-> counted ack = true).
Proof.
  unfold ping_view. destruct (position_sec body >? 10) eqn:E.
  - eexists _, _. split; [reflexivity |]. simpl.
    apply Z.gtb_lt in E. repeat split; eauto; lia.
  - eexists _, _. split; [reflexivity |]. simpl.
    assert (~ position_sec body > 10).
    { intros H. apply Z.gt_lt, Z.gtb_lt in H. congruence. }
    repeat split; try easy. intros [u Hu]. discriminate.
Qed.

(** ** Users *)

(** C8.  Every call to [get_me] fails, whatever the authorization header:
    reading [user_id] raises [NameError], so the handler returns no
    [UserOut]. *)
Theorem get_me_always_fails (authorization : string) (w : World) :
  get_me authorization w = (Raise (NameError "user_id"), w)
  /\ ~ returns (get_me authorization) w.
Proof.
  split; [apply get_me_raises |].
  intros (u & w' & H). rewrite get_me_raises in H. discriminate.
Qed.

(** C7 (failing input).  [GET /users/get_me] is not the refresh route and
    its handler fails: with the header [Bearer demo] the gateway raises
    [NameError]. *)
Theorem get_me_is_a_second_failing_handler :
  dispatch (GET_users_get_me "Bearer demo") sample_world
    = (Raise (NameError "user_id"), sample_world)
  /\ ~ is_refresh_of_empty_token (GET_users_get_me "Bearer demo").
Proof.
  split.
  - apply respond_raises, get_me_raises.
  - intros (body & H & _). discriminate.
Qed.

(** ** Search *)

(** C6 (counterexample).  After a history whose only publication is of
    video 1, a search returns a public video whose id is not 1: it was never
    published. *)
Lemma search_returns_unpublished_video :
  let history := [POST_processing_publish (mkPublishRequest 1%N true)] in
  exists outs w1 resp v w2,
    serve history sample_world = (outs, w1)
    /\ published history = [1%N]
    /\ search_videos_global None None desc 1 1 w1 = (Return resp, w2)
    /\ items resp = [v]
    /\ vo_visibility v = public
    /\ ~ In (vo_id v) (published history)
    /\ ~ only_published_discoverable.
Proof.
  cbv zeta. do 5 eexists.
  split; [reflexivity |]. split; [reflexivity |].
  split; [reflexivity |]. split; [reflexivity |].
  split; [reflexivity |].
  assert (Hne : ~ In (uuid_v4 0) [1%N]).
  { vm_compute. intros [H | []]. discriminate. }
  split; [exact Hne |].
  intros H.
  pose proof (H [POST_processing_publish (mkPublishRequest 1%N true)]
                sample_world _ _ None None desc 1 1 _ _ eq_refl eq_refl
                _ (or_introl eq_refl)) as Hin.
  vm_compute in Hin. destruct Hin as [Hin | []]. discriminate.
Qed.

(** C6 (amended).  For a page number of at least 1 and a page size between
    1 and 200, when the search names a non-empty [q] or [tag] or else the
    indices of the page have at most 4300 digits
    ([page * size <= 10^4300]), [search_videos_global] returns exactly
    [size] videos it fabricates on the spot, each with freshly drawn ids,
    visibility [public] and status ["ready"], with [total] 1000, whatever
    has or has not been published. *)
Theorem search_videos_global_fabricates
    (q tag : option string) (sort : SortOrder) (page size : Z) (w : World) :
  1 <= page -> 1 <= size <= 200 ->
  nonempty q <> None \/ nonempty tag <> None \/ page * size <= int_str_limit ->
  exists resp,
    search_videos_global q tag sort page size w
      = (Return resp, later (2 * Z.to_nat size) (Z.to_nat size) w)
    /\ meta resp = mkPageMeta page size 1000
    /\ items resp = map (found_video q tag ((page - 1) * size) w)
                      (seq 0 (Z.to_nat size))
    /\ Z.of_nat (length (items resp)) = size
    /\ Forall (fun v => vo_visibility v = public /\ vo_status v = "ready")
         (items resp).
Proof.
  intros Hp Hs Hl. eexists. split.
  - apply search_videos_global_valid; [exact Hp | exact Hs |].
    apply found_titles_print; [exact Hp | lia | exact Hl].
  - simpl. split; [reflexivity |]. split; [reflexivity |]. split.
    + rewrite length_map, length_seq. lia.
    + apply List.Forall_forall. intros v Hv. apply in_map_iff in Hv.
      destruct Hv as (k & <- & _). now split.
Qed.

Lemma search_videos_global_fabricates_first_page :
  exists resp,
    search_videos_global (Some "cats") None desc 1 20 sample_world
      = (Return resp, later (2 * Z.to_nat 20) (Z.to_nat 20) sample_world)
    /\ meta resp = mkPageMeta 1 20 1000
    /\ items resp = map (found_video (Some "cats") None ((1 - 1) * 20)
                           sample_world) (seq 0 (Z.to_nat 20))
    /\ Z.of_nat (length (items resp)) = 20
    /\ Forall (fun v => vo_visibility v = public /\ vo_status v = "ready")
         (items resp).
Proof.
  apply (search_videos_global_fabricates (Some "cats") None desc 1 20
           sample_world); [lia | lia |].
  left. discriminate.
Defined.

(** ** Which requests fail *)

Lemma returns_bind_iff {A B} (c : Handler A) (k : A -> Handler B) w :
  returns (bind c k) w
  <-> exists a w', c w = (Return a, w') /\ returns (k a) w'.
Proof.
  unfold returns at 1. unfold bind.
  destruct (c w) as [[a | e] w1]; split.
  - intros H. exists a, w1. split; [reflexivity | exact H].
  - intros (a' & w' & [= <- <-] & H). exact H.
  - intros (b & w' & H). discriminate.
  - intros (a' & w' & H & _). discriminate.
Qed.

Lemma for_each_returns_iff {A B} (f : A -> Handler B) (P : A -> Prop) :
  (forall a w, returns (f a) w <-> P a) ->
  forall l w, returns (for_each f l) w <-> Forall P l.
Proof.
  intros Hf l. induction l as [| a l IH]; intros w.
  - split; [constructor | intros _; now exists [], w].
  - cbn [for_each]. rewrite returns_bind_iff. split.
    + intros (b & w1 & Hb & Hrest). rewrite returns_bind_iff in Hrest.
      destruct Hrest as (bs & w2 & Hbs & _). constructor.
      * apply (Hf a w). now exists b, w1.
      * apply (IH w1). now exists bs, w2.
    + intros H. inversion H as [| ? ? Ha Hl]; subst.
      destruct (proj2 (Hf a w) Ha) as (b & w1 & Hb).
      exists b, w1. split; [exact Hb |]. rewrite returns_bind_iff.
      destruct (proj2 (IH w1) Hl) as (bs & w2 & Hbs).
      exists bs, w2. split; [exact Hbs |]. now exists (b :: bs), w2.
Qed.

Lemma for_each_raises {A B} (f : A -> Handler B) e : forall l w w',
  for_each f l w = (Raise e, w') ->
  exists a w1, In a l /\ f a w1 = (Raise e, w').
Proof.
  induction l as [| a l IH]; intros w w' H; [discriminate |].
  cbn [for_each] in H. unfold bind at 1 in H.
  destruct (f a w) as [[b | e1] w1] eqn:Ha.
  - unfold bind at 1 in H.
    destruct (for_each f l w1) as [[bs | e2] w2] eqn:Hl; [discriminate |].
    injection H as <- <-. destruct (IH _ _ Hl) as (a' & w3 & Hin & Hr).
    exists a', w3. split; [now right | exact Hr].
  - injection H as <- <-. exists a, w. split; [now left | exact Ha].
Qed.

Lemma range_spec a b i : In i (range a b) <-> a <= i < b.
Proof.
  unfold range. rewrite in_map_iff. split.
  - intros (k & <- & Hk). apply in_seq in Hk. lia.
  - intros H. exists (Z.to_nat (i - a)). split; [lia |]. apply in_seq. lia.
Qed.

Lemma page_prints_spec page size :
  page_prints page size
  <-> forall i, (page - 1) * size <= i < page * size -> Z.abs i < int_str_limit.
Proof.
  split; [intros H i; now apply page_prints_index |].
  intros H. unfold page_prints.
  destruct (Z_le_gt_dec size 0) as [Hs | Hs]; [now left | right].
  pose proof (H ((page - 1) * size)). pose proof (H (page * size - 1)). lia.
Qed.

Lemma page_prints_dec page size : page_prints page size \/ ~ page_prints page size.
Proof.
  unfold page_prints.
  destruct (Z_le_gt_dec size 0); [tauto |].
  destruct (Z_lt_ge_dec (- int_str_limit) ((page - 1) * size));
    destruct (Z_le_gt_dec (page * size) int_str_limit); [tauto | | |];
    right; lia.
Qed.

Lemma listed_item_returns owner_id visibility i w :
  returns
    (id <- uuid4 ;;
     owner <- match owner_id with
              | Some o => ret o
              | None => uuid4
              end ;;
     number <- lift (str_int i) ;;
     created_at <- datetime_now ;;
     ret (mkVideoOut id owner ("Video " +:+ number) None []
            (or_else visibility public) None "ready" created_at)) w
  <-> Z.abs i < int_str_limit.
Proof.
  unfold returns, bind, uuid4, datetime_now, lift, ret, str_int.
  destruct (Z.ltb_spec (Z.abs i) int_str_limit) as [H | H];
    destruct owner_id; simpl; split; intros H';
    try lia; try (eexists _, _; reflexivity);
    destruct H' as (v & w' & H'); discriminate.
Qed.

Lemma search_videos_returns_iff o t v s page size w :
  returns (search_videos o t v s page size) w <-> page_prints page size.
Proof.
  unfold search_videos.
  rewrite (for_each_returns_iff _ (fun i => Z.abs i < int_str_limit))
    by (intros; apply listed_item_returns).
  rewrite List.Forall_forall, page_prints_spec.
  split; intros H i Hi; apply H; now apply range_spec.
Qed.

Lemma found_item_returns q tag i w :
  returns
    (id <- uuid4 ;;
     owner_id <- uuid4 ;;
     title <- lift (found_title q tag i) ;;
     created_at <- datetime_now ;;
     ret (mkVideoOut id owner_id title None [] public None "ready" created_at))
    w
  <-> nonempty q <> None \/ nonempty tag <> None \/ Z.abs i < int_str_limit.
Proof.
  unfold returns, bind, uuid4, datetime_now, lift, ret, found_title, str_int.
  destruct (nonempty q) as [s |];
    [split; [intros _; now left | intros _; eexists _, _; reflexivity] |].
  destruct (nonempty tag) as [t' |];
    [split; [intros _; right; now left | intros _; eexists _, _; reflexivity] |].
  destruct (Z.ltb_spec (Z.abs i) int_str_limit) as [H | H]; simpl; split.
  - intros _. right. now right.
  - intros _. eexists _, _. reflexivity.
  - intros (v & w' & H'). discriminate.
  - intros [H' | [H' | H']]; [contradiction | contradiction | lia].
Qed.

Lemma PageMeta_new_returns page size :
  (exists m, PageMeta_new page size 1000 = Return m)
  <-> 1 <= page /\ 1 <= size <= 200.
Proof.
  unfold PageMeta_new, PageMeta_errors.
  destruct (Z.leb_spec 1 page) as [Hp | Hp], (Z.leb_spec 1 size) as [Hl | Hl],
    (Z.leb_spec size 200) as [Hu | Hu];
    simpl; (split; [intros [m Hm]; first [discriminate | lia] | intros Hv]);
    first [lia | eexists; reflexivity].
Qed.

Lemma search_videos_global_returns_iff q tag sort page size w :
  returns (search_videos_global q tag sort page size) w
  <-> (1 <= page /\ 1 <= size <= 200)
      /\ (nonempty q <> None \/ nonempty tag <> None \/ page_prints page size).
Proof.
  split.
  - unfold search_videos_global. rewrite returns_bind_iff.
    intros (videos & w1 & Hv & Hm). rewrite returns_bind_iff in Hm.
    destruct Hm as (m & w2 & Hm & _). unfold lift in Hm. split.
    + apply PageMeta_new_returns. exists m. congruence.
    + assert (Hr : returns
                     (for_each
                        (fun i =>
                           id <- uuid4 ;;
                           owner_id <- uuid4 ;;
                           title <- lift (found_title q tag i) ;;
                           created_at <- datetime_now ;;
                           ret (mkVideoOut id owner_id title None [] public
                                  None "ready" created_at))
                        (range ((page - 1) * size) (page * size))) w)
        by now exists videos, w1.
      rewrite (for_each_returns_iff _
                 (fun i => nonempty q <> None \/ nonempty tag <> None
                           \/ Z.abs i < int_str_limit))
        in Hr by (intros; apply found_item_returns).
      rewrite List.Forall_forall in Hr.
      destruct (nonempty q) as [s |]; [left; discriminate |].
      destruct (nonempty tag) as [t' |]; [right; left; discriminate |].
      right. right. apply page_prints_spec. intros i Hi.
      destruct (Hr i) as [H | [H | H]];
        [now apply range_spec | contradiction | contradiction | exact H].
  - intros [[Hp Hs] Ht]. eexists _, _.
    apply search_videos_global_valid; [exact Hp | exact Hs |].
    intros i Hi.
    destruct Ht as [Ht | [Ht | Ht]];
      [apply found_title_named; now left
      | apply found_title_named; now right
      | apply found_title_prints].
    now apply (page_prints_index page size).
Qed.

Lemma create_comment_returns_iff body x w :
  returns (create_comment body x) w <-> is_Some x.
Proof.
  unfold returns, create_comment. destruct x as [u |]; simpl.
  - split; [eauto |]. intros _. eexists _, _. reflexivity.
  - split; [| intros [u Hu]; discriminate]. intros (c & w' & H).
    revert H. vm_compute. discriminate.
Qed.

(** X1.  The handlers that can fail are exactly [refresh] on an empty
    token, [get_me], [create_comment] without an [x-user-id] header,
    [search_videos] on a page with an index of more than 4300 digits, and
    [search_videos_global] outside page >= 1, 1 <= size <= 200 or, when
    neither [q] nor [tag] gives the title, on such a page; every other
    request is answered. *)
Lemma dispatch_raises_iff (r : Request) (w : World) :
  raises (dispatch r) w <->
  match r with
  | POST_auth_refresh body => refresh_token body = ""
  | GET_users_get_me _ => True
  | GET_videos _ _ _ _ page size => ~ page_prints page size
  | POST_social_comments _ x => x = None
  | GET_search_videos q tag _ page size =>
      ~ (1 <= page /\ 1 <= size <= 200)
      \/ (nonempty q = None /\ nonempty tag = None
          /\ ~ page_prints page size)
  | _ => False
  end.
Proof.
  assert (flip : forall c : Handler Response,
             (raises c w <-> ~ returns c w)).
  { intros c. destruct (returns_or_raises c w) as [H | H].
    - split; [intros H'; now apply returns_not_raises in H |]. tauto.
    - split; [| tauto]. intros _ H'. now apply returns_not_raises in H'. }
  destruct r; unfold dispatch; rewrite flip, respond_returns;
    try (split; [intros H; exfalso; apply H; clear;
                 eexists _, _; reflexivity | tauto]).
  - unfold returns, refresh.
    destruct (String.eqb_spec (refresh_token body) "") as [E | E].
    + split; [intros _; exact E | intros _ (a & w' & H); discriminate].
    + split; [| contradiction].
      intros H. exfalso. apply H. eexists _, _. reflexivity.
  - split; [easy |]. intros _ (u & w' & H).
    rewrite get_me_raises in H. discriminate.
  - now rewrite search_videos_returns_iff.
  - rewrite create_comment_returns_iff. destruct x_user_id; split.
    + intros H. exfalso. apply H. eauto.
    + discriminate.
    + reflexivity.
    + intros _ [u Hu]. discriminate.
  - split; [| tauto]. intros H. apply H. unfold ping_view.
    destruct (position_sec body >? 10); eexists _, _; reflexivity.
  - rewrite search_videos_global_returns_iff.
    pose proof (page_prints_dec page size) as Hpp.
    assert (Hv : (1 <= page /\ 1 <= size <= 200)
                 \/ ~ (1 <= page /\ 1 <= size <= 200)) by lia.
    assert (Hq : nonempty q = None \/ nonempty q <> None)
      by (destruct (nonempty q); [right; discriminate | now left]).
    assert (Ht : nonempty tag = None \/ nonempty tag <> None)
      by (destruct (nonempty tag); [right; discriminate | now left]).
    tauto.
Qed.

(** * Proofs: the Status Store *)

Module StatusStoreFacts.
Import StatusStore.

Lemma in_table_legal (a b : Status) : in_table a b = true <-> legal a b.
Proof.
  split.
  - destruct a, b; intros H; try discriminate H; constructor.
  - intros []; reflexivity.
Qed.

Lemma status_allowed_spec (r : StatusRecord) (d : Delta) :
  status_allowed r d = true <->
  (status (apply r d) = status r /\ to_status d = None)
  \/ (legal (status r) (status (apply r d)) /\ to_status d = Some (status (apply r d))).
Proof.
  unfold status_allowed, apply. destruct (to_status d) as [s |]; simpl.
  - rewrite in_table_legal. split; [auto |]. intros [[_ H] | [H _]]; [discriminate | exact H].
  - split; [auto | reflexivity].
Qed.

Lemma progress_allowed_spec (r : StatusRecord) (d : Delta) :
  progress_allowed r d = false <->
  exists p, to_progress d = Some p
            /\ ((100 < p)%N \/ (new_attempt d = false /\ (p < progress r)%N)).
Proof.
  unfold progress_allowed. destruct (to_progress d) as [p |].
  - destruct (N.leb_spec p 100), (new_attempt d), (N.leb_spec (progress r) p);
      simpl; split; try discriminate; try (intros _; exists p; split; [reflexivity |]; auto; lia).
    all: intros (p' & [= <-] & [H' | [H' H'']]); try discriminate; lia.
  - split; [discriminate |]. intros (p & H & _). discriminate.
Qed.

(** C5.  Every update either is applied, the status staying where it was or
    moving along an edge of [uploaded -> queued -> processing -> {ready,
    failed}], or fails with [InvalidTransition] and returns the store
    exactly as it was; a write to a stored record is rejected only when it
    leaves the graph or regresses progress within an attempt. *)
Theorem update_follows_graph_or_rejects
    (store : gmap UUID StatusRecord) (id : UUID) (d : Delta) :
  (exists r,
      store !! id = Some r
      /\ update store id d = (<[id := apply r d]> store, inl tt)
      /\ (status (apply r d) = status r \/ legal (status r) (status (apply r d))))
  \/ (update store id d = (store, inr InvalidTransition)
      /\ forall r, store !! id = Some r ->
           (exists s, to_status d = Some s /\ ~ legal (status r) s)
           \/ (exists p, to_progress d = Some p
                 /\ ((100 < p)%N
                     \/ (new_attempt d = false /\ (p < progress r)%N)))).
Proof.
  unfold update. destruct (store !! id) as [r |] eqn:Hr.
  - destruct (status_allowed r d) eqn:Hs; simpl.
    + destruct (progress_allowed r d) eqn:Hp.
      * left. exists r. split; [reflexivity |]. split; [reflexivity |].
        apply status_allowed_spec in Hs. tauto.
      * right. split; [reflexivity |]. intros r' [= <-]. right.
        now apply progress_allowed_spec.
    + right. split; [reflexivity |]. intros r' [= <-]. left.
      unfold status_allowed in Hs. destruct (to_status d) as [s |]; [| discriminate].
      exists s. split; [reflexivity |]. rewrite <- in_table_legal. congruence.
  - right. split; [reflexivity |]. discriminate.
Qed.

(** Within an attempt an applied update never lowers the progress; it
    drops, to 0 unless the update reports another value, only when a new
    attempt starts. *)
Lemma update_keeps_progress
    (store store' : gmap UUID StatusRecord) (id : UUID) (d : Delta)
    (r : StatusRecord) :
  store !! id = Some r ->
  update store id d = (store', inl tt) ->
  store' !! id = Some (apply r d)
  /\ (new_attempt d = false -> (progress r <= progress (apply r d))%N)
  /\ ((progress (apply r d) < progress r)%N -> new_attempt d = true).
Proof.
  intros Hr. unfold update. rewrite Hr.
  destruct (status_allowed r d); simpl; [| discriminate].
  destruct (progress_allowed r d) eqn:Hp; [| discriminate].
  intros [= <-]. split; [apply lookup_insert_eq |].
  unfold progress_allowed in Hp. unfold apply. simpl.
  destruct (to_progress d) as [p |], (new_attempt d); simpl in *;
    try (split; [intros; lia | intros; first [reflexivity | lia]]).
  apply andb_true_iff in Hp. destruct Hp as [_ Hp]. apply N.leb_le in Hp.
  split; intros; lia.
Qed.

(** One write, seen from any stored video: the record stays stored, and
    its progress drops only when the write is to that video, is applied
    and starts a new attempt. *)
Lemma write_keeps_progress
    (store : gmap UUID StatusRecord) (id : UUID) (r : StatusRecord)
    (write : UUID * Delta) :
  store !! id = Some r ->
  exists r',
    fst (update store (fst write) (snd write)) !! id = Some r'
    /\ ((progress r' < progress r)%N ->
        fst write = id
        /\ new_attempt (snd write) = true
        /\ update store id (snd write) = (<[id := r']> store, inl tt)).
Proof.
  intros Hr. destruct write as [id' d]. simpl.
  destruct (update store id' d) as [store' [[] | e]] eqn:Hu.
  - destruct (decide (id' = id)) as [-> | Hne].
    + destruct (update_keeps_progress store store' id d r Hr Hu)
        as (Hl & _ & Hdrop).
      exists (apply r d). simpl. split; [exact Hl |]. intros Hlt.
      split; [reflexivity |]. split; [now apply Hdrop |].
      rewrite Hu. f_equal. unfold update in Hu. rewrite Hr in Hu.
      destruct (status_allowed r d && progress_allowed r d);
        [| discriminate]. now injection Hu as <-.
    + exists r. simpl. split; [| lia]. unfold update in Hu.
      destruct (store !! id') as [r0 |]; [| discriminate].
      destruct (status_allowed r0 d && progress_allowed r0 d);
        [| discriminate].
      injection Hu as <-. now rewrite lookup_insert_ne.
  - exists r. simpl. split; [| lia]. unfold update in Hu.
    destruct (store !! id') as [r0 |]; [| now injection Hu as <-].
    destruct (status_allowed r0 d && progress_allowed r0 d);
      [discriminate | now injection Hu as <-].
Qed.

Lemma run_app (a b : list (UUID * Delta)) (store : gmap UUID StatusRecord) :
  run (a ++ b) store = run b (run a store).
Proof. apply fold_left_app. Qed.

Lemma attempts_started_cons (id : UUID) (write : UUID * Delta)
    (writes : list (UUID * Delta)) :
  attempts_started id (write :: writes) = [] ->
  attempts_started id writes = []
  /\ ~ (fst write = id /\ new_attempt (snd write) = true).
Proof.
  destruct write as [id' d]. unfold attempts_started.
  cbn [List.filter fst snd].
  destruct (N.eqb_spec id' id) as [E | E]; cbn [map List.filter fst snd].
  - destruct (new_attempt d); intros H; [discriminate H |].
    split; [exact H |]. intros [_ H']. discriminate H'.
  - intros H. split; [exact H |]. tauto.
Qed.

(** Over a sequence of writes a stored video stays stored, and unless one
    of the writes starts a new attempt of it its progress has not
    dropped. *)
Lemma run_keeps_progress (id : UUID) (writes : list (UUID * Delta)) :
  forall (store : gmap UUID StatusRecord) (r : StatusRecord),
    store !! id = Some r ->
    exists r',
      run writes store !! id = Some r'
      /\ (attempts_started id writes = [] -> (progress r <= progress r')%N).
Proof.
  induction writes as [| write writes IH]; intros store r Hr.
  - exists r. split; [exact Hr | lia].
  - destruct (write_keeps_progress store id r write Hr) as (r1 & Hr1 & Hdrop).
    destruct (IH _ r1 Hr1) as (r' & Hr' & Hle).
    exists r'. split; [exact Hr' |]. intros Hnone.
    apply attempts_started_cons in Hnone. destruct Hnone as [Hnone Hnot].
    specialize (Hle Hnone).
    destruct (N.lt_ge_cases (progress r1) (progress r)) as [Hlt | Hge];
      [| lia].
    exfalso. apply Hnot. destruct (Hdrop Hlt) as (H1 & H2 & _). now split.
Qed.

(** C4.  Progress in the Status Store never decreases within an attempt:
    over any sequence of writes with no new attempt of a video among them
    the stored progress of the video is at least what it was, rejected
    writes included; the progress drops at a write only when that write is
    applied to the video and starts a new attempt, and a new attempt that
    reports no progress of its own leaves the progress at 0. *)
Theorem progress_drops_only_on_a_new_attempt
    (store : gmap UUID StatusRecord) (id : UUID) (r : StatusRecord)
    (writes : list (UUID * Delta)) (write : UUID * Delta) :
  store !! id = Some r ->
  exists r1 r2,
    run writes store !! id = Some r1
    /\ run (writes ++ [write]) store !! id = Some r2
    /\ (attempts_started id writes = [] -> (progress r <= progress r1)%N)
    /\ (attempts_started id (writes ++ [write]) = [] ->
        (progress r <= progress r1 <= progress r2)%N)
    /\ ((progress r2 < progress r1)%N ->
        fst write = id
        /\ new_attempt (snd write) = true
        /\ update (run writes store) id (snd write)
           = (run (writes ++ [write]) store, inl tt))
    /\ (fst write = id -> new_attempt (snd write) = true ->
        to_progress (snd write) = None ->
        update (run writes store) id (snd write)
          = (run (writes ++ [write]) store, inl tt) ->
        progress r2 = 0%N).
Proof.
  intros Hr.
  destruct (run_keeps_progress id writes store r Hr) as (r1 & Hr1 & Hle).
  destruct (write_keeps_progress (run writes store) id r1 write Hr1)
    as (r2 & Hr2 & Hdrop).
  assert (Hstep : run (writes ++ [write]) store
                  = fst (update (run writes store) (fst write) (snd write)))
    by (rewrite run_app; reflexivity).
  exists r1, r2. rewrite Hstep.
  split; [exact Hr1 |]. split; [exact Hr2 |]. split; [exact Hle |].
  split; [| split].
  - intros Hnone.
    destruct (run_keeps_progress id (writes ++ [write]) store r Hr)
      as (r2' & Hr2' & Hle2).
    rewrite Hstep, Hr2 in Hr2'. injection Hr2' as <-.
    assert (Hw : attempts_started id writes = []).
    { revert Hnone. unfold attempts_started.
      rewrite List.filter_app, map_app, List.filter_app.
      intros H. now apply app_eq_nil in H. }
    assert (Hlast : ~ (fst write = id /\ new_attempt (snd write) = true)).
    { revert Hnone. unfold attempts_started.
      rewrite List.filter_app, map_app, List.filter_app.
      intros H. apply app_eq_nil in H. destruct H as [_ H].
      now apply (attempts_started_cons id write []). }
    split; [now apply Hle |].
    destruct (N.lt_ge_cases (progress r2) (progress r1)) as [Hlt | Hge];
      [| lia].
    exfalso. apply Hlast. destruct (Hdrop Hlt) as (H1 & H2 & _). now split.
  - intros Hlt. destruct (Hdrop Hlt) as (H1 & H2 & H3).
    split; [exact H1 |]. split; [exact H2 |].
    rewrite H1, H3. reflexivity.
  - intros Hid Hnew Hnone Hu.
    destruct (update_keeps_progress _ _ id (snd write) r1 Hr1 Hu)
      as (Hl & _).
    assert (E : r2 = apply r1 (snd write)) by congruence.
    rewrite E. unfold apply. simpl. now rewrite Hnone, Hnew.
Qed.

(** A video at 40% of its first attempt: a report of 50% is applied, a
    report of 30% is rejected, and a new attempt resets the progress. *)
Lemma progress_drops_only_on_a_new_attempt_example :
  let store : gmap UUID StatusRecord :=
    {[ 1%N := mkStatusRecord 1%N processing 40%N None ]} in
  let r := mkStatusRecord 1%N processing 40%N None in
  let writes := [ (1%N, mkDelta None (Some 50%N) false None);
                  (1%N, mkDelta None (Some 30%N) false None) ] in
  let write := (1%N, mkDelta None None true None) in
  exists r1 r2,
    run writes store !! 1%N = Some r1
    /\ run (writes ++ [write]) store !! 1%N = Some r2
    /\ (attempts_started 1%N writes = [] -> (progress r <= progress r1)%N)
    /\ (attempts_started 1%N (writes ++ [write]) = [] ->
        (progress r <= progress r1 <= progress r2)%N)
    /\ ((progress r2 < progress r1)%N ->
        fst write = 1%N
        /\ new_attempt (snd write) = true
        /\ update (run writes store) 1%N (snd write)
           = (run (writes ++ [write]) store, inl tt))
    /\ (fst write = 1%N -> new_attempt (snd write) = true ->
        to_progress (snd write) = None ->
        update (run writes store) 1%N (snd write)
          = (run (writes ++ [write]) store, inl tt) ->
        progress r2 = 0%N).
Proof.
  cbv zeta.
  apply (progress_drops_only_on_a_new_attempt
           {[ 1%N := mkStatusRecord 1%N processing 40%N None ]} 1%N
           (mkStatusRecord 1%N processing 40%N None)
           [ (1%N, mkDelta None (Some 50%N) false None);
             (1%N, mkDelta None (Some 30%N) false None) ]
           (1%N, mkDelta None None true None)).
  vm_compute. reflexivity.
Defined.

End StatusStoreFacts.

(** * Proofs: the Upload Receiver *)

Module UploadReceiverFacts.
Import UploadReceiver.

Section Delivery.

Variable buffer_bound : N.

Local Abbreviation appendChunk := (appendChunk buffer_bound).
Local Abbreviation deliver := (deliver buffer_bound).

Lemma same_range_refl r : same_range r r = true.
Proof. unfold same_range. now rewrite !N.eqb_refl. Qed.

Lemma appendChunk_duplicate s r d :
  failure s = None -> already_received r s = true ->
  appendChunk s r d = (s, inl duplicate).
Proof. intros Hf Hr. unfold UploadReceiver.appendChunk. now rewrite Hf, Hr. Qed.

Lemma appendChunk_failed s r d e :
  failure s = Some e -> appendChunk s r d = (s, inr e).
Proof. intros Hf. unfold UploadReceiver.appendChunk. now rewrite Hf. Qed.

Lemma appendChunk_settled_noop s r d :
  settled r s -> fst (appendChunk s r d) = s.
Proof.
  intros [Hr | Hf].
  - destruct (failure s) as [e |] eqn:E.
    + now rewrite (appendChunk_failed _ _ _ e).
    + now rewrite appendChunk_duplicate.
  - destruct (failure s) as [e |] eqn:E; [| contradiction].
    now rewrite (appendChunk_failed _ _ _ e).
Qed.

Lemma already_received_store r r' d s :
  already_received r (store r' d s)
  = already_received r s || same_range r r'.
Proof.
  unfold already_received, store. simpl.
  rewrite existsb_app. simpl. now rewrite orb_false_r.
Qed.

Lemma appendChunk_settles s r d : settled r (fst (appendChunk s r d)).
Proof.
  unfold UploadReceiver.appendChunk, settled.
  destruct (failure s) as [e |] eqn:E; simpl.
  - right. congruence.
  - destruct (already_received r s) eqn:Hr; simpl; [now left |].
    destruct (lo r =? frontier s)%N; simpl.
    + left. now rewrite already_received_store, same_range_refl, orb_true_r.
    + destruct (buffered s + length_of r <=? buffer_bound)%N; simpl.
      * left. now rewrite already_received_store, same_range_refl, orb_true_r.
      * right. discriminate.
Qed.

Lemma appendChunk_keeps_settled s r r' d :
  settled r s -> settled r (fst (appendChunk s r' d)).
Proof.
  intros [Hr | Hf]; unfold UploadReceiver.appendChunk, settled.
  - destruct (failure s) as [e |] eqn:E; simpl; [now left |].
    destruct (already_received r' s); simpl; [now left |].
    destruct (lo r' =? frontier s)%N; simpl.
    + left. now rewrite already_received_store, Hr.
    + destruct (buffered s + length_of r' <=? buffer_bound)%N; simpl.
      * left. now rewrite already_received_store, Hr.
      * right. discriminate.
  - destruct (failure s) as [e |] eqn:E; [| contradiction]. simpl. right.
    congruence.
Qed.

Lemma redelivery_changes_nothing seen cs cs' :
  redelivered seen cs cs' ->
  forall s, (forall r, In r seen -> settled r s) ->
  deliver cs' s = deliver cs s.
Proof.
  induction 1 as [seen | seen c cs cs' _ IH | seen r d cs cs' Hin _ IH];
    intros s Hseen.
  - reflexivity.
  - simpl. apply IH. intros r [<- | Hr].
    + apply appendChunk_settles.
    + apply appendChunk_keeps_settled, Hseen, Hr.
  - simpl. rewrite appendChunk_settled_noop by now apply Hseen.
    now apply IH.
Qed.

(** C3.  Delivering again a byte range that was delivered before changes
    nothing: whatever the session and the sequence of deliveries, adding
    re-deliveries leaves the session, and so the object assembled from it,
    exactly as the sequence without them does; each re-delivered range the
    session holds is answered [duplicate] and written nowhere. *)
Theorem duplicate_delivery_is_idempotent
    (s : UploadSession) (cs cs' : list Chunk) :
  redelivered [] cs cs' ->
  deliver cs' s = deliver cs s
  /\ assemble (deliver cs' s) = assemble (deliver cs s)
  /\ forall s' r d,
       failure s' = None -> already_received r s' = true ->
       appendChunk s' r d = (s', inl duplicate).
Proof.
  intros H.
  assert (E : deliver cs' s = deliver cs s).
  { apply (redelivery_changes_nothing [] cs cs' H). intros r []. }
  split; [exact E |]. split; [now rewrite E |].
  intros s' r d. apply appendChunk_duplicate.
Qed.

End Delivery.

(** ** Exact cover *)

#[local] Instance by_offset_total : Total by_offset.
Proof. intros a b. unfold by_offset. lia. Qed.

#[local] Instance by_offset_transitive : Transitive by_offset.
Proof. intros a b c. unfold by_offset. lia. Qed.

Lemma coverage_cons o r rs :
  coverage o (r :: rs) = ((if contains o r then 1 else 0) + coverage o rs)%nat.
Proof. unfold coverage. simpl. now destruct (contains o r). Qed.

Lemma coverage_permutation o rs rs' :
  Permutation rs rs' -> coverage o rs = coverage o rs'.
Proof.
  induction 1 as [| r rs rs' _ IH | r r' rs | rs1 rs2 rs3 _ IH1 _ IH2].
  - reflexivity.
  - now rewrite !coverage_cons, IH.
  - rewrite !coverage_cons. lia.
  - congruence.
Qed.

Lemma coverage_nonempty o cs :
  coverage o (map byte_range
                (List.filter (fun c => (lo (byte_range c) <? hi (byte_range c))%N) cs))
  = coverage o (map byte_range cs).
Proof.
  induction cs as [| c cs IH]; [reflexivity |]. simpl.
  destruct (N.ltb_spec (lo (byte_range c)) (hi (byte_range c))) as [H | H]; simpl;
    rewrite !coverage_cons, IH; [reflexivity |].
  unfold contains.
  destruct (N.leb_spec (lo (byte_range c)) o), (N.ltb_spec o (hi (byte_range c)));
    simpl; lia.
Qed.

Lemma coverage_in_order o cs :
  coverage o (map byte_range (in_order cs)) = coverage o (map byte_range cs).
Proof.
  unfold in_order. rewrite <- (coverage_nonempty o cs).
  apply coverage_permutation, Permutation_map, merge_sort_Permutation.
Qed.

Lemma in_order_nonempty cs c :
  In c (in_order cs) -> (lo (byte_range c) < hi (byte_range c))%N.
Proof.
  unfold in_order. intros H.
  apply (Permutation_in _ (merge_sort_Permutation by_offset _)) in H.
  apply filter_In in H. destruct H as [_ H]. now apply N.ltb_lt.
Qed.

Lemma in_order_sorted cs : StronglySorted by_offset (in_order cs).
Proof. apply StronglySorted_merge_sort; apply _. Qed.

Lemma coverage_none o cs :
  (forall c, In c cs -> contains o (byte_range c) = false) ->
  coverage o (map byte_range cs) = 0%nat.
Proof.
  induction cs as [| c cs IH]; intros H; [reflexivity |]. simpl.
  rewrite coverage_cons, (H c) by now left.
  apply IH. intros c' Hc'. apply H. now right.
Qed.

Lemma contiguous_covers cs : forall pos size,
  (forall c, In c cs -> (lo (byte_range c) < hi (byte_range c))%N) ->
  contiguous pos cs size = true ->
  (pos <= size)%N
  /\ forall o, coverage o (map byte_range cs)
                = if within pos size o then 1%nat else 0%nat.
Proof.
  induction cs as [| c cs IH]; intros pos size Hne H; simpl in H.
  - apply N.eqb_eq in H. subst. split; [lia |]. intros o. unfold within.
    destruct (N.leb_spec size o), (N.ltb_spec o size); simpl; try reflexivity; lia.
  - apply andb_true_iff in H. destruct H as [Hlo H]. apply N.eqb_eq in Hlo.
    destruct (IH (hi (byte_range c)) size) as [Hle Hcov];
      [intros c' Hc'; apply Hne; now right | exact H |].
    assert (Hc : (lo (byte_range c) < hi (byte_range c))%N) by (apply Hne; now left).
    split; [lia |]. intros o. simpl. rewrite coverage_cons, Hcov.
    unfold contains, within. rewrite Hlo.
    destruct (N.leb_spec pos o), (N.ltb_spec o (hi (byte_range c))),
      (N.leb_spec (hi (byte_range c)) o), (N.ltb_spec o size);
      simpl; try reflexivity; lia.
Qed.

Lemma covered_contiguous cs : forall pos size,
  StronglySorted by_offset cs ->
  (forall c, In c cs -> (lo (byte_range c) < hi (byte_range c))%N) ->
  (pos <= size)%N ->
  (forall o, coverage o (map byte_range cs)
             = if within pos size o then 1%nat else 0%nat) ->
  contiguous pos cs size = true.
Proof.
  induction cs as [| c cs IH]; intros pos size Hs Hne Hle Hcov; simpl.
  - specialize (Hcov pos). unfold within in Hcov. simpl in Hcov.
    apply N.eqb_eq.
    destruct (N.leb_spec pos pos), (N.ltb_spec pos size); simpl in Hcov;
      try discriminate; lia.
  - apply StronglySorted_inv in Hs. destruct Hs as [Hs Hfirst].
    assert (Hc : (lo (byte_range c) < hi (byte_range c))%N) by (apply Hne; now left).
    assert (Hin : forall o, within (lo (byte_range c)) (hi (byte_range c)) o = true ->
                            within pos size o = true).
    { intros o Ho. specialize (Hcov o). simpl in Hcov.
      rewrite coverage_cons in Hcov. unfold contains in Hcov.
      unfold within in Ho. rewrite Ho in Hcov.
      destruct (within pos size o); [reflexivity | discriminate]. }
    assert (Hlo : lo (byte_range c) = pos).
    { pose proof (Hin (lo (byte_range c))) as H1. unfold within in H1.
      destruct (N.leb_spec (lo (byte_range c)) (lo (byte_range c))); [| lia].
      destruct (N.ltb_spec (lo (byte_range c)) (hi (byte_range c))); [| lia].
      specialize (H1 eq_refl). apply andb_true_iff in H1.
      destruct H1 as [H1 H2]. apply N.leb_le in H1. apply N.ltb_lt in H2.
      destruct (N.eq_dec (lo (byte_range c)) pos) as [E | E]; [exact E |].
      exfalso. specialize (Hcov pos). unfold within in Hcov.
      destruct (N.leb_spec pos pos); [| lia].
      destruct (N.ltb_spec pos size); [| lia]. simpl in Hcov.
      change (c :: cs) with ([c] ++ cs) in Hcov.
      assert (Hnone : coverage pos (map byte_range (c :: cs)) = 0%nat).
      { apply coverage_none. intros c' [<- | Hc'].
        - unfold contains. destruct (N.leb_spec (lo (byte_range c)) pos); [lia |].
          reflexivity.
        - rewrite List.Forall_forall in Hfirst. specialize (Hfirst c' Hc').
          unfold by_offset in Hfirst. unfold contains.
          destruct (N.leb_spec (lo (byte_range c')) pos); [lia | reflexivity]. }
      simpl in Hnone. simpl in Hcov. congruence. }
    assert (Hhi : (hi (byte_range c) <= size)%N).
    { pose proof (Hin (hi (byte_range c) - 1)%N) as H1. unfold within in H1.
      destruct (N.leb_spec (lo (byte_range c)) (hi (byte_range c) - 1)); [| lia].
      destruct (N.ltb_spec (hi (byte_range c) - 1) (hi (byte_range c))); [| lia].
      specialize (H1 eq_refl). apply andb_true_iff in H1.
      destruct H1 as [_ H2]. apply N.ltb_lt in H2. lia. }
    rewrite Hlo, N.eqb_refl. simpl.
    apply IH; [exact Hs | intros c' Hc'; apply Hne; now right | exact Hhi |].
    intros o. specialize (Hcov o). simpl in Hcov. rewrite coverage_cons in Hcov.
    unfold contains, within in *. rewrite Hlo in Hcov.
    destruct (N.leb_spec pos o), (N.ltb_spec o (hi (byte_range c))),
      (N.leb_spec (hi (byte_range c)) o), (N.ltb_spec o size);
      simpl in *; try lia.
Qed.

Lemma contiguous_iff_exact_cover cs size :
  contiguous 0 (in_order cs) size = true
  <-> exact_cover (map byte_range cs) size.
Proof.
  unfold exact_cover. split.
  - intros H o. rewrite <- coverage_in_order.
    destruct (contiguous_covers _ _ _ (in_order_nonempty cs) H) as [_ Hcov].
    rewrite Hcov. unfold within. now destruct (N.leb_spec 0 o); [| lia].
  - intros H. apply covered_contiguous;
      [apply in_order_sorted | apply in_order_nonempty | lia |].
    intros o. rewrite coverage_in_order, H. unfold within.
    now destruct (N.leb_spec 0 o); [| lia].
Qed.

Section Completion.

Variable checksum : list byte -> N.

Local Abbreviation complete := (complete checksum).
Local Abbreviation checksum_ok := (checksum_ok checksum).

(** C2.  For a session that has not failed, [complete] succeeds exactly
    when the received byte ranges cover [0, expected_size) with no gap and
    no overlap (and the checksum, if one is supplied, matches); when they do
    not it fails with [IncompleteUpload], and when they do but the supplied
    checksum differs it fails with [ChecksumMismatch]. *)
Theorem complete_succeeds_iff_exact_cover
    (s : UploadSession) (supplied : option N) :
  failure s = None ->
  ((exists v, complete s None = inl v)
     <-> exact_cover (map byte_range (received s)) (expected_size s))
  /\ ((exists v, complete s supplied = inl v)
     <-> exact_cover (map byte_range (received s)) (expected_size s)
         /\ checksum_ok s supplied = true)
  /\ (~ exact_cover (map byte_range (received s)) (expected_size s) ->
      complete s supplied = inr IncompleteUpload)
  /\ (exact_cover (map byte_range (received s)) (expected_size s) ->
      checksum_ok s supplied = false ->
      complete s supplied = inr ChecksumMismatch).
Proof.
  intros Hf. unfold UploadReceiver.complete. rewrite Hf.
  pose proof (contiguous_iff_exact_cover (received s) (expected_size s)) as Hc.
  destruct (contiguous 0 (in_order (received s)) (expected_size s)).
  - assert (He : exact_cover (map byte_range (received s)) (expected_size s))
      by now apply Hc.
    split; [simpl; split; eauto |].
    destruct (UploadReceiver.checksum_ok checksum s supplied).
    + split; [split; eauto |]. split; [contradiction | discriminate].
    + split; [split; [intros [v H]; discriminate | intros [_ H]; discriminate] |].
      split; [contradiction | reflexivity].
  - assert (He : ~ exact_cover (map byte_range (received s)) (expected_size s)).
    { intros H. apply Hc in H. discriminate. }
    split; [split; [intros [v H]; discriminate | contradiction] |].
    split; [split; [intros [v H]; discriminate | tauto] |].
    split; [reflexivity | contradiction].
Qed.

End Completion.

(** The three chunks delivered out of order cover the 2500 declared bytes:
    the upload completes and the stored object has 2500 bytes. *)
Example out_of_order_upload_completes :
  exists v,
    complete Scenario.byte_sum Scenario.uploaded_session None = inl v
    /\ length (stored_object v) = 2500%nat
    /\ video_status v = "queued".
Proof. eexists. split; [vm_compute; reflexivity |]. split; reflexivity. Qed.

Lemma complete_succeeds_iff_exact_cover_scenario :
  ((exists v, complete Scenario.byte_sum Scenario.uploaded_session None = inl v)
     <-> exact_cover (map byte_range (received Scenario.uploaded_session)) 2500)
  /\ ((exists v, complete Scenario.byte_sum Scenario.uploaded_session (Some 4500%N)
                 = inl v)
     <-> exact_cover (map byte_range (received Scenario.uploaded_session)) 2500
         /\ checksum_ok Scenario.byte_sum Scenario.uploaded_session (Some 4500%N)
            = true)
  /\ (~ exact_cover (map byte_range (received Scenario.uploaded_session)) 2500 ->
      complete Scenario.byte_sum Scenario.uploaded_session (Some 4500%N)
      = inr IncompleteUpload)
  /\ (exact_cover (map byte_range (received Scenario.uploaded_session)) 2500 ->
      checksum_ok Scenario.byte_sum Scenario.uploaded_session (Some 4500%N) = false ->
      complete Scenario.byte_sum Scenario.uploaded_session (Some 4500%N)
      = inr ChecksumMismatch).
Proof.
  apply (complete_succeeds_iff_exact_cover Scenario.byte_sum
           Scenario.uploaded_session (Some 4500%N)).
  vm_compute. reflexivity.
Defined.

Lemma duplicate_delivery_is_idempotent_scenario :
  deliver Scenario.default_buffer_bound Scenario.delivery_with_resends
    Scenario.new_session
  = deliver Scenario.default_buffer_bound Scenario.out_of_order_delivery
      Scenario.new_session
  /\ assemble (deliver Scenario.default_buffer_bound
                 Scenario.delivery_with_resends Scenario.new_session)
     = assemble (deliver Scenario.default_buffer_bound
                   Scenario.out_of_order_delivery Scenario.new_session)
  /\ forall s' r d,
       failure s' = None -> already_received r s' = true ->
       appendChunk Scenario.default_buffer_bound s' r d = (s', inl duplicate).
Proof.
  apply (duplicate_delivery_is_idempotent Scenario.default_buffer_bound
           Scenario.new_session Scenario.out_of_order_delivery
           Scenario.delivery_with_resends).
  unfold Scenario.out_of_order_delivery, Scenario.delivery_with_resends.
  apply redelivered_next, redelivered_next.
  apply (redelivered_again _ (byte_range Scenario.second_chunk)
           (data Scenario.second_chunk)); [simpl; auto |].
  apply redelivered_next.
  apply (redelivered_again _ (byte_range Scenario.first_chunk)
           (data Scenario.first_chunk)); [simpl; auto |].
  apply redelivered_nil.
Defined.

End UploadReceiverFacts.

(** * Proofs: the rest of the gateway *)

(** ** Listing videos *)

Lemma listed_video_first owner_id visibility start w :
  listed_video owner_id visibility start w 0
  = mkVideoOut (uuid_v4 (urandom w (draws w)))
      (match owner_id with
       | Some o => o
       | None => uuid_v4 (urandom w (S (draws w)))
       end)
      ("Video " +:+ decimal (start + Z.of_nat 0)) None []
      (or_else visibility public) None "ready" (wall_clock w (reads w)).
Proof.
  unfold listed_video. rewrite Nat.mul_0_r, !Nat.add_0_r.
  destruct owner_id; same_up_to_arithmetic.
Qed.

Lemma listed_video_next owner_id visibility start w k :
  listed_video owner_id visibility start w (S k)
  = listed_video owner_id visibility (start + 1)
      (mkWorld (urandom w) (draws_per_video owner_id + draws w) (wall_clock w)
         (S (reads w))) k.
Proof.
  unfold listed_video. destruct owner_id; simpl; same_up_to_arithmetic.
Qed.

Lemma listed_item owner_id visibility i w :
  Z.abs i < int_str_limit ->
  (id <- uuid4 ;;
   owner <- match owner_id with
            | Some o => ret o
            | None => uuid4
            end ;;
   number <- lift (str_int i) ;;
   created_at <- datetime_now ;;
   ret (mkVideoOut id owner ("Video " +:+ number) None []
          (or_else visibility public) None "ready" created_at)) w
  = (Return (mkVideoOut (uuid_v4 (urandom w (draws w)))
               (match owner_id with
                | Some o => o
                | None => uuid_v4 (urandom w (S (draws w)))
                end)
               ("Video " +:+ decimal i) None []
               (or_else visibility public) None "ready"
               (wall_clock w (reads w))),
     mkWorld (urandom w) (draws_per_video owner_id + draws w) (wall_clock w)
       (S (reads w))).
Proof.
  intros H. unfold bind, uuid4, datetime_now, lift, ret.
  destruct owner_id; simpl; now rewrite (str_int_prints i H).
Qed.

Lemma listed_items owner_id visibility n : forall start w,
  (forall k, (k < n)%nat -> Z.abs (start + Z.of_nat k) < int_str_limit) ->
  for_each
    (fun i =>
       id <- uuid4 ;;
       owner <- match owner_id with
                | Some o => ret o
                | None => uuid4
                end ;;
       number <- lift (str_int i) ;;
       created_at <- datetime_now ;;
       ret (mkVideoOut id owner ("Video " +:+ number) None []
              (or_else visibility public) None "ready" created_at))
    (map (fun k => start + Z.of_nat k) (seq 0 n)) w
  = (Return (map (listed_video owner_id visibility start w) (seq 0 n)),
     later (draws_per_video owner_id * n) n w).
Proof.
  induction n as [| n IH]; intros start w H.
  - simpl. unfold ret, later. destruct w as [u d c r]. simpl.
    now rewrite Nat.mul_0_r, !Nat.add_0_r.
  - rewrite <- cons_seq, <- seq_shift, !map_cons, !map_map.
    rewrite (map_ext (fun k => start + Z.of_nat (S k))
               (fun k => (start + 1) + Z.of_nat k)) by (intros; lia).
    rewrite listed_video_first.
    rewrite (map_ext _ _ (listed_video_next owner_id visibility start w)).
    cbn [for_each]. unfold bind at 1.
    rewrite listed_item by (apply H; lia).
    unfold bind at 1. rewrite IH.
    + unfold ret, later. destruct owner_id; simpl; same_up_to_arithmetic.
    + intros k Hk.
      replace (start + 1 + Z.of_nat k) with (start + Z.of_nat (S k)) by lia.
      apply H. lia.
Qed.

Lemma search_videos_items owner_id tag visibility sort page size w :
  page_prints page size ->
  search_videos owner_id tag visibility sort page size w
  = (Return (map (listed_video owner_id visibility ((page - 1) * size) w)
               (seq 0 (Z.to_nat size))),
     later (draws_per_video owner_id * Z.to_nat size) (Z.to_nat size) w).
Proof.
  intros H. unfold search_videos, range.
  replace (page * size - (page - 1) * size) with size by lia.
  apply listed_items. intros k Hk.
  apply (page_prints_index page size); [exact H | now apply page_indices].
Qed.

Lemma nth_error_map_seq {A} (f : nat -> A) (n : nat) : forall a k,
  nth_error (map f (seq a n)) k
  = if (k <? n)%nat then Some (f (a + k)%nat) else None.
Proof.
  induction n as [| n IH]; intros a k; simpl.
  - now destruct k.
  - destruct k as [| k]; simpl.
    + now rewrite Nat.add_0_r.
    + rewrite IH. change (S k <? S n)%nat with (k <? n)%nat.
      destruct (k <? n)%nat; [| reflexivity]. f_equal. f_equal. lia.
Qed.

Lemma video_title_inj (a b : Z) :
  "Video " +:+ decimal a = "Video " +:+ decimal b -> a = b.
Proof.
  simpl. intros H. injection H as H. change (pretty a = pretty b) in H.
  now apply (inj pretty) in H.
Qed.

Lemma found_title_inj (a b : Z) :
  "Found " +:+ decimal a = "Found " +:+ decimal b -> a = b.
Proof.
  simpl. intros H. injection H as H. change (pretty a = pretty b) in H.
  now apply (inj pretty) in H.
Qed.

Lemma range_NoDup (a b : Z) : List.NoDup (range a b).
Proof.
  unfold range. apply Finite.Injective_map_NoDup; [| apply seq_NoDup].
  intros x y H. lia.
Qed.

Lemma titles_listed owner_id visibility start w n :
  titles (map (listed_video owner_id visibility start w) (seq 0 n))
  = map (fun k => "Video " +:+ decimal (start + Z.of_nat k)) (seq 0 n).
Proof. unfold titles. rewrite map_map. reflexivity. Qed.

(** X5.  On a page whose indices have at most 4300 digits each (any page
    when [size <= 0]) [search_videos] does not fail: it answers [size]
    videos (none when [size <= 0]), titled [Video i] for the indices [i]
    of [range((page - 1) * size, page * size)] in order, all ["ready"],
    with the visibility asked for or else [public] and the owner asked for
    when there is one; [tag] and [sort] change nothing. *)
Theorem search_videos_lists_the_page
    (owner_id : option UUID) (tag : option string)
    (visibility : option Visibility) (sort : SortOrder) (page size : Z)
    (w : World) :
  page_prints page size ->
  exists videos,
    search_videos owner_id tag visibility sort page size w
      = (Return videos,
         later (draws_per_video owner_id * Z.to_nat size) (Z.to_nat size) w)
    /\ search_videos owner_id None visibility asc page size w
      = search_videos owner_id tag visibility sort page size w
    /\ Z.of_nat (length videos) = Z.max 0 size
    /\ titles videos
       = map (fun i => "Video " +:+ decimal i)
           (range ((page - 1) * size) (page * size))
    /\ Forall (fun v => vo_status v = "ready"
                        /\ vo_visibility v = or_else visibility public
                        /\ forall o, owner_id = Some o -> vo_owner_id v = o)
         videos.
Proof.
  intros Hpp. eexists. split; [now apply search_videos_items |].
  split; [now rewrite !search_videos_items |].
  split; [rewrite length_map, length_seq; lia |].
  split.
  - rewrite titles_listed. unfold range.
    replace (page * size - (page - 1) * size) with size by lia.
    now rewrite map_map.
  - apply List.Forall_forall. intros v Hv. apply in_map_iff in Hv.
    destruct Hv as (k & <- & _). unfold listed_video. simpl.
    repeat split. intros o ->. reflexivity.
Qed.

Lemma search_videos_lists_the_page_example :
  exists videos,
    search_videos (Some 7%N) (Some "cats") None desc 0 3 sample_world
      = (Return videos,
         later (draws_per_video (Some 7%N) * Z.to_nat 3) (Z.to_nat 3)
           sample_world)
    /\ search_videos (Some 7%N) None None asc 0 3 sample_world
      = search_videos (Some 7%N) (Some "cats") None desc 0 3 sample_world
    /\ Z.of_nat (length videos) = Z.max 0 3
    /\ titles videos
       = map (fun i => "Video " +:+ decimal i) (range ((0 - 1) * 3) (0 * 3))
    /\ Forall (fun v => vo_status v = "ready"
                        /\ vo_visibility v = or_else None public
                        /\ forall o, Some 7%N = Some o -> vo_owner_id v = o)
         videos.
Proof.
  apply (search_videos_lists_the_page (Some 7%N) (Some "cats") None desc 0 3
           sample_world).
  right. split; [apply Z.ltb_lt | apply Z.leb_le]; vm_compute; reflexivity.
Defined.

(** X6.  Pages tile the indices: for a positive page size every index
    [i >= 0] whose page has indices of at most 4300 digits is listed on
    page [i / size + 1] at position [i mod size], and nowhere else: a page
    that lists [Video i] at some position is that page at that position. *)
Theorem every_index_is_on_one_page
    (owner_id : option UUID) (tag : option string)
    (visibility : option Visibility) (sort : SortOrder) (size i : Z)
    (w : World) :
  0 < size -> 0 <= i -> (i / size + 1) * size <= int_str_limit ->
  (exists videos w',
      search_videos owner_id tag visibility sort (i / size + 1) size w
        = (Return videos, w')
      /\ nth_error (titles videos) (Z.to_nat (i mod size))
         = Some ("Video " +:+ decimal i))
  /\ forall page k videos w',
       search_videos owner_id tag visibility sort page size w
         = (Return videos, w') ->
       nth_error (titles videos) k = Some ("Video " +:+ decimal i) ->
       page = i / size + 1 /\ k = Z.to_nat (i mod size).
Proof.
  intros Hsize Hi Hl. split.
  - assert (Hpp : page_prints (i / size + 1) size).
    { right. split; [| exact Hl].
      assert (0 <= i / size) by (apply Z.div_pos; lia).
      assert (0 <= (i / size + 1 - 1) * size) by nia.
      assert (0 < int_str_limit) by (apply Z.ltb_lt; vm_compute; reflexivity).
      lia. }
    eexists _, _. split; [now apply search_videos_items |].
    rewrite titles_listed, nth_error_map_seq.
    pose proof (Z.mod_pos_bound i size Hsize) as Hm.
    destruct (Nat.ltb_spec (Z.to_nat (i mod size)) (Z.to_nat size)); [| lia].
    do 3 f_equal. simpl. rewrite Z2Nat.id by lia.
    pose proof (Z.div_mod i size). lia.
  - intros page k videos w' Hs Hk.
    assert (Hpp : page_prints page size).
    { apply (search_videos_returns_iff owner_id tag visibility sort page size w).
      now exists videos, w'. }
    rewrite search_videos_items in Hs by exact Hpp.
    injection Hs as <- _. rewrite titles_listed, nth_error_map_seq in Hk.
    destruct (Nat.ltb_spec k (Z.to_nat size)) as [Hlt | Hge]; [| discriminate].
    assert (Hi' : (page - 1) * size + Z.of_nat (0 + k) = i)
      by (apply video_title_inj; congruence).
    simpl in Hi'.
    assert (Hq : page - 1 = i / size).
    { apply (Z.div_unique_pos i size (page - 1) (Z.of_nat k)); lia. }
    assert (Hr : Z.of_nat k = i mod size).
    { apply (Z.mod_unique_pos i size (page - 1) (Z.of_nat k)); lia. }
    split; lia.
Qed.

Lemma every_index_is_on_one_page_example :
  (exists videos w',
      search_videos None None None desc (47 / 20 + 1) 20 sample_world
        = (Return videos, w')
      /\ nth_error (titles videos) (Z.to_nat (47 mod 20))
         = Some ("Video " +:+ decimal 47))
  /\ forall page k videos w',
       search_videos None None None desc page 20 sample_world
         = (Return videos, w') ->
       nth_error (titles videos) k = Some ("Video " +:+ decimal 47) ->
       page = 47 / 20 + 1 /\ k = Z.to_nat (47 mod 20).
Proof.
  apply (every_index_is_on_one_page None None None desc 20 47 sample_world);
    [lia | lia |].
  apply Z.leb_le. vm_compute. reflexivity.
Defined.

(** ** Searching *)

Lemma PageMeta_errors_rejected page size :
  PageMeta_errors page size 1000 = rejected_fields page size.
Proof.
  unfold PageMeta_errors, rejected_fields.
  destruct (Z.leb_spec 1 page), (Z.ltb_spec page 1); try lia;
    destruct (Z.leb_spec 1 size), (Z.leb_spec size 200), (Z.ltb_spec size 1),
      (Z.ltb_spec 200 size); try lia; reflexivity.
Qed.

Lemma search_videos_global_invalid q tag sort page size w :
  page < 1 \/ size < 1 \/ 200 < size ->
  nonempty q <> None \/ nonempty tag <> None \/ page_prints page size ->
  search_videos_global q tag sort page size w
  = (Raise (ValidationError "PageMeta" (rejected_fields page size)),
     later (2 * Z.to_nat size) (Z.to_nat size) w).
Proof.
  intros H Hpp. rewrite search_videos_global_outcome.
  - unfold PageMeta_new. rewrite PageMeta_errors_rejected.
    unfold rejected_fields.
    destruct (Z.ltb_spec page 1), (Z.ltb_spec size 1), (Z.ltb_spec 200 size);
      try lia; reflexivity.
  - now apply found_titles_print_on.
Qed.

(** X3.  [search_videos_global] validates its paging only after it has
    fabricated the page: for [page < 1] or a [size] outside 1..200, when
    the search names a non-empty [q] or [tag] or else the indices of the
    page have at most 4300 digits, it raises a [PageMeta] validation error
    naming exactly the offending fields among [page] and [size] (never
    [total]), and by then it has drawn two ids and read the clock once for
    each of the videos it discards. *)
Theorem search_videos_global_fails_late
    (q tag : option string) (sort : SortOrder) (page size : Z) (w : World) :
  page < 1 \/ size < 1 \/ 200 < size ->
  nonempty q <> None \/ nonempty tag <> None \/ page_prints page size ->
  search_videos_global q tag sort page size w
    = (Raise (ValidationError "PageMeta" (rejected_fields page size)),
       later (2 * Z.to_nat size) (Z.to_nat size) w)
  /\ rejected_fields page size <> []
  /\ (In "page" (rejected_fields page size) <-> page < 1)
  /\ (In "size" (rejected_fields page size) <-> size < 1 \/ 200 < size)
  /\ ~ In "total" (rejected_fields page size).
Proof.
  intros H Hpp. split; [now apply search_videos_global_invalid |].
  clear Hpp. unfold rejected_fields.
  destruct (Z.ltb_spec page 1), (Z.ltb_spec size 1), (Z.ltb_spec 200 size);
    try lia; simpl; (split; [discriminate |]);
    intuition (try discriminate; try lia).
Qed.

Lemma search_videos_global_fails_late_example :
  search_videos_global None None desc 0 201 sample_world
    = (Raise (ValidationError "PageMeta" (rejected_fields 0 201)),
       later (2 * Z.to_nat 201) (Z.to_nat 201) sample_world)
  /\ rejected_fields 0 201 <> []
  /\ (In "page" (rejected_fields 0 201) <-> 0 < 1)
  /\ (In "size" (rejected_fields 0 201) <-> 201 < 1 \/ 200 < 201)
  /\ ~ In "total" (rejected_fields 0 201).
Proof.
  apply (search_videos_global_fails_late None None desc 0 201 sample_world).
  - lia.
  - right. right. right.
    split; [apply Z.ltb_lt | apply Z.leb_le]; vm_compute; reflexivity.
Defined.

Lemma found_titles q tag start w n :
  titles (map (found_video q tag start w) (seq 0 n))
  = map (fun k => found_text q tag (start + Z.of_nat k)) (seq 0 n).
Proof. unfold titles. rewrite map_map. reflexivity. Qed.

(** X7.  What a search is titled after: on a valid page every video is
    titled [Found q] when [q] is not empty, else [Found tag] when [tag] is
    not empty (an empty string counts as absent), and else, the indices of
    the page having at most 4300 digits, [Found i] for its index [i], in
    which case no two videos of the page share a title; [sort] changes
    nothing. *)
Theorem search_titles_follow_the_query
    (q tag : option string) (sort : SortOrder) (page size : Z) (w : World) :
  1 <= page -> 1 <= size <= 200 ->
  nonempty q <> None \/ nonempty tag <> None \/ page * size <= int_str_limit ->
  exists resp w',
    search_videos_global q tag sort page size w = (Return resp, w')
    /\ search_videos_global q tag asc page size w = (Return resp, w')
    /\ (forall s, q = Some s -> s <> "" ->
        Forall (fun t => t = "Found " +:+ s) (titles (items resp)))
    /\ (forall t, nonempty q = None -> tag = Some t -> t <> "" ->
        Forall (fun t' => t' = "Found " +:+ t) (titles (items resp)))
    /\ (nonempty q = None -> nonempty tag = None ->
        titles (items resp)
        = map (fun i => "Found " +:+ decimal i)
            (range ((page - 1) * size) (page * size))
        /\ List.NoDup (titles (items resp))).
Proof.
  intros Hp Hs Hl.
  assert (Hprints : forall i, (page - 1) * size <= i < page * size ->
                      found_title q tag i = Return (found_text q tag i)).
  { apply found_titles_print; [exact Hp | lia | exact Hl]. }
  eexists _, _.
  split; [now apply search_videos_global_valid |].
  split; [now apply search_videos_global_valid |].
  simpl items. rewrite found_titles.
  split; [| split].
  - intros s -> Hne. apply List.Forall_forall. intros t Ht.
    apply in_map_iff in Ht. destruct Ht as (k & <- & _).
    unfold found_text, nonempty.
    now destruct (String.eqb_spec s "").
  - intros t Hq -> Hne. apply List.Forall_forall. intros t' Ht.
    apply in_map_iff in Ht. destruct Ht as (k & <- & _).
    unfold found_text, or_str. rewrite Hq. unfold nonempty.
    now destruct (String.eqb_spec t "").
  - intros Hq Ht.
    assert (E : map (fun k => found_text q tag ((page - 1) * size + Z.of_nat k))
                  (seq 0 (Z.to_nat size))
                = map (fun i => "Found " +:+ decimal i)
                    (range ((page - 1) * size) (page * size))).
    { unfold range.
      replace (page * size - (page - 1) * size) with size by lia.
      rewrite map_map. apply map_ext. intros k.
      unfold found_text, or_str. now rewrite Hq, Ht. }
    rewrite E. split; [reflexivity |].
    apply Finite.Injective_map_NoDup; [| apply range_NoDup].
    intros a b. apply found_title_inj.
Qed.

Lemma search_titles_follow_the_query_example :
  exists resp w',
    search_videos_global (Some "") (Some "cats") desc 2 3 sample_world
      = (Return resp, w')
    /\ search_videos_global (Some "") (Some "cats") asc 2 3 sample_world
      = (Return resp, w')
    /\ (forall s, Some "" = Some s -> s <> "" ->
        Forall (fun t => t = "Found " +:+ s) (titles (items resp)))
    /\ (forall t, nonempty (Some "") = None -> Some "cats" = Some t -> t <> "" ->
        Forall (fun t' => t' = "Found " +:+ t) (titles (items resp)))
    /\ (nonempty (Some "") = None -> nonempty (Some "cats") = None ->
        titles (items resp)
        = map (fun i => "Found " +:+ decimal i) (range ((2 - 1) * 3) (2 * 3))
        /\ List.NoDup (titles (items resp))).
Proof.
  apply (search_titles_follow_the_query (Some "") (Some "cats") desc 2 3
           sample_world); [lia | lia |].
  right. left. discriminate.
Defined.

(** ** Tokens *)

Lemma search_videos_never_http o t v s page size w code detail w' :
  search_videos o t v s page size w <> (Raise (HTTPException code detail), w').
Proof.
  intros H. unfold search_videos in H. apply for_each_raises in H.
  destruct H as (i & w1 & _ & H). revert H.
  unfold bind, uuid4, datetime_now, lift, ret, str_int.
  destruct o, (Z.abs i <? int_str_limit); simpl; discriminate.
Qed.

Lemma search_videos_global_never_http q tag sort page size w code detail w' :
  search_videos_global q tag sort page size w
  <> (Raise (HTTPException code detail), w').
Proof.
  intros H. unfold search_videos_global in H. unfold bind at 1 in H.
  destruct (for_each _ _ w) as [[videos | e] w1] eqn:Hv.
  - revert H. unfold bind, lift, ret, PageMeta_new.
    destruct (PageMeta_errors page size 1000); discriminate.
  - injection H as -> ->. apply for_each_raises in Hv.
    destruct Hv as (i & w2 & _ & Hv). revert Hv.
    unfold bind, uuid4, datetime_now, lift, ret, found_title, str_int.
    destruct (nonempty q), (nonempty tag), (Z.abs i <? int_str_limit);
      simpl; discriminate.
Qed.

(** X2.  The one HTTP error the handlers raise themselves is [refresh]'s:
    a request is answered with an [HTTPException] exactly when it is a
    refresh of an empty token, and then the exception is 400 with detail
    [invalid refresh_token] and nothing has been consumed. *)
Theorem refresh_is_the_only_http_error
    (r : Request) (w : World) (code : Z) (detail : string) (w' : World) :
  dispatch r w = (Raise (HTTPException code detail), w')
  <-> exists body,
        r = POST_auth_refresh body
        /\ refresh_token body = ""
        /\ code = 400
        /\ detail = "invalid refresh_token"
        /\ w' = w.
Proof.
  split.
  - destruct r; unfold dispatch; intros H; apply respond_raises in H;
      try (cbv beta iota delta
             [login_oauth login logout create_user update_user create_video
              get_video update_video delete_video init_upload
              get_processing_status publish_video get_comment delete_comment
              set_like send_notification get_video_stats get_user_stats
              healthcheck bind ret raise lift uuid4 datetime_now
              ProcessStatus_new] in H;
           simpl in H; discriminate H).
    + exists body. unfold refresh in H.
      destruct (String.eqb_spec (refresh_token body) "") as [E | E];
        [| discriminate H].
      injection H as <- <- <-. auto.
    + now apply search_videos_never_http in H.
    + destruct x_user_id; vm_compute in H; discriminate H.
    + unfold ping_view in H. destruct (position_sec body >? 10);
        discriminate H.
    + now apply search_videos_global_never_http in H.
  - intros (body & -> & E & -> & -> & ->).
    apply respond_raises, refresh_rejects_empty, E.
Qed.

(** X10.  A refresh token that is not empty is echoed: [refresh] answers
    a pair carrying the very token it was given, with access token
    [access.refreshed] and 3500 seconds to live, and refreshing with the
    token of that answer gives the same answer again; the token [login]
    hands out can be refreshed, whatever the credentials. *)
Theorem refresh_echoes_the_token (body : RefreshRequest) (w : World) :
  refresh_token body <> "" ->
  exists t,
    refresh body w = (Return t, w)
    /\ tp_refresh_token t = refresh_token body
    /\ access_token t = "access.refreshed"
    /\ expires_in t = 3500
    /\ refresh (mkRefreshRequest (tp_refresh_token t)) w = (Return t, w)
    /\ forall credentials, exists t0 t1,
         login credentials w = (Return t0, w)
         /\ refresh (mkRefreshRequest (tp_refresh_token t0)) w = (Return t1, w)
         /\ tp_refresh_token t1 = tp_refresh_token t0
         /\ expires_in t1 < expires_in t0.
Proof.
  intros Hne. unfold refresh. simpl.
  destruct (String.eqb_spec (refresh_token body) "") as [E | _];
    [contradiction |].
  eexists. split; [reflexivity |]. simpl.
  split; [reflexivity |]. split; [reflexivity |]. split; [reflexivity |].
  split.
  - destruct (String.eqb_spec (refresh_token body) "") as [E | _];
      [contradiction | reflexivity].
  - intros credentials. eexists _, _.
    split; [reflexivity |]. split; [reflexivity |].
    split; [reflexivity | simpl; lia].
Qed.

Lemma refresh_echoes_the_token_example :
  exists t,
    refresh (mkRefreshRequest "r1") sample_world = (Return t, sample_world)
    /\ tp_refresh_token t = refresh_token (mkRefreshRequest "r1")
    /\ access_token t = "access.refreshed"
    /\ expires_in t = 3500
    /\ refresh (mkRefreshRequest (tp_refresh_token t)) sample_world
       = (Return t, sample_world)
    /\ forall credentials, exists t0 t1,
         login credentials sample_world = (Return t0, sample_world)
         /\ refresh (mkRefreshRequest (tp_refresh_token t0)) sample_world
            = (Return t1, sample_world)
         /\ tp_refresh_token t1 = tp_refresh_token t0
         /\ expires_in t1 < expires_in t0.
Proof.
  apply (refresh_echoes_the_token (mkRefreshRequest "r1") sample_world).
  discriminate.
Defined.

(** ** Comments *)

(** X4.  [create_comment] needs the [x-user-id] header: with it the
    comment is answered with the header's user as author, the body's video
    and text, a fresh id and the current time; without it the declared
    default ["u_123"] reaches the [UUID] field [author_id] and construction
    of the answer fails validation, after the id has been drawn and the
    clock read. *)
Theorem create_comment_needs_the_user_header
    (body : CommentCreate) (x_user_id : option UUID) (w : World) :
  create_comment body x_user_id w
  = (match x_user_id with
     | Some u =>
         Return (mkCommentOut (uuid_v4 (urandom w (draws w)))
                   (cc_video_id body) u (cc_text body)
                   (wall_clock w (reads w)))
     | None => Raise (ValidationError "CommentOut" ["author_id"])
     end,
     later 1 1 w).
Proof.
  unfold create_comment, bind, uuid4, datetime_now, lift, ret, later.
  destruct x_user_id as [u |]; simpl; same_up_to_arithmetic.
Qed.

(** ** Updating and reading back *)



(** X9.  The gateway does not read back what it was given: the video
    [create_video] answers has status ["uploaded"], and [get_video] on its
    id answers another record with the same id, status ["ready"], title
    [Sample Video], visibility [public] and 123 seconds, while
    [get_processing_status] reports it ["running"]; after [delete_video]
    the video is still answered. *)
Theorem created_video_is_not_read_back
    (body : VideoCreate) (user_id : UUID) (w : World) :
  exists v w1 g w2 st gone g' w3,
    create_video body user_id w = (Return v, w1)
    /\ get_video (vo_id v) w1 = (Return g, w2)
    /\ get_processing_status (vo_id v) w2 = (Return st, w2)
    /\ vo_id g = vo_id v
    /\ g <> v
    /\ vo_title v = vc_title body
    /\ vo_owner_id v = user_id
    /\ vo_status v = "uploaded"
    /\ vo_status g = "ready"
    /\ ps_status st = "running"
    /\ vo_title g = "Sample Video"
    /\ vo_visibility g = public
    /\ vo_duration_sec g = Some 123
    /\ delete_video (vo_id v) w2 = (Return gone, w2)
    /\ get_video (vo_id v) w2 = (Return g', w3)
    /\ vo_id g' = vo_id v
    /\ vo_status g' = "ready".
Proof.
  eexists _, _, _, _, _, _, _, _.
  split; [reflexivity |]. split; [reflexivity |]. split; [reflexivity |].
  split; [reflexivity |]. split; [discriminate |].
  repeat (split; [reflexivity |]). reflexivity.
Qed.
